(** * Outline extraction, sectioning and ranking of [1B.py]

    A shallow embedding of the three components of [src/1B.py]
    ([PDFOutlineExtractor], [DocumentSectionizer], [SemanticRanker]) and the
    properties of their specification.

    Conventions of the embedding:
    - a Python [str] is a list of Unicode code points ([N]);
    - Python integers are [Z]; a heading level ["H<n>"] is the integer [n];
    - a float that is only copied and compared (page coordinates) is a
      rational ([Q]); similarity scores are kept abstract behind an order;
    - a [dict] whose iteration order is observed is an association list in
      insertion order;
    - the PDF decoder (PyMuPDF) and the embedding model are inputs. *)

From Stdlib Require Import QArith Ascii.
From stdpp Require Import base list numbers strings sorting sets.

Close Scope Q_scope.
Open Scope Z_scope.

(** ** Python strings *)

Module PyStr.

Local Open Scope N_scope.

Definition char := N.
Definition str := list char.

(** A string literal of the source, as code points (ASCII literals only). *)
Fixpoint lit (s : string) : str :=
  match s with
  | EmptyString => []
  | String a s' => N_of_ascii a :: lit s'
  end.

Definition in_range (lo hi c : char) : bool := (lo <=? c) && (c <=? hi).

(** [Py_UNICODE_ISSPACE]: the class used by [str.strip], [str.split] and the
    regular expression escape [\s] on [str] patterns. *)
Definition is_space (c : char) : bool :=
  in_range 9 13 c || in_range 28 32 c || (c =? 133) || (c =? 160)
  || (c =? 5760) || in_range 8192 8202 c || (c =? 8232) || (c =? 8233)
  || (c =? 8239) || (c =? 8287) || (c =? 12288).

(** [[a-zA-Z]] *)
Definition is_ascii_alpha (c : char) : bool :=
  in_range 97 122 c || in_range 65 90 c.

Definition is_ascii_digit (c : char) : bool := in_range 48 57 c.

Definition char_eqb (a b : char) : bool := a =? b.

(** [s.lstrip()], [s.rstrip()], [s.strip()] *)
Fixpoint lstrip (s : str) : str :=
  match s with
  | c :: s' => if is_space c then lstrip s' else s
  | [] => []
  end.

Definition rstrip (s : str) : str := reverse (lstrip (reverse s)).

Definition strip (s : str) : str := rstrip (lstrip s).

(** [s.split()]: the maximal runs of non-whitespace characters. [cur] is the
    word being read, in reverse. *)
Fixpoint split_aux (cur : str) (s : str) : list str :=
  match s with
  | [] => match cur with [] => [] | _ => [reverse cur] end
  | c :: s' =>
      if is_space c
      then match cur with
           | [] => split_aux [] s'
           | _ => reverse cur :: split_aux [] s'
           end
      else split_aux (c :: cur) s'
  end.

Definition split (s : str) : list str := split_aux [] s.

(** [sep.join(parts)] *)
Fixpoint join (sep : str) (parts : list str) : str :=
  match parts with
  | [] => []
  | [p] => p
  | p :: ps => p ++ sep ++ join sep ps
  end.

Definition space : str := [32].

(** [' '.join(s.split())] *)
Definition normalize (s : str) : str := join space (split s).

(** [s.count(c)] for a one-character needle *)
Definition count_char (c : char) (s : str) : Z :=
  Z.of_nat (length (List.filter (char_eqb c) s)).

(** [s.endswith((c1, c2, ...))] for one-character suffixes *)
Definition ends_with_any (cs : list char) (s : str) : bool :=
  match last s with
  | Some c => existsb (char_eqb c) cs
  | None => false
  end.

(** [needle in s] *)
Fixpoint is_prefix (p s : str) : bool :=
  match p, s with
  | [], _ => true
  | x :: p', y :: s' => char_eqb x y && is_prefix p' s'
  | _ :: _, [] => false
  end.

Fixpoint contains (needle s : str) : bool :=
  is_prefix needle s ||
  match s with
  | [] => false
  | _ :: s' => contains needle s'
  end.

End PyStr.

Export PyStr.

(** ** Regular expressions

    The patterns of the source are built from character classes,
    concatenation, alternation and greedy repetition. [exec] is the
    backtracking matcher of the [re] module in continuation-passing style:
    alternatives are tried left to right and a repetition tries one more
    iteration before it tries to stop. An iteration has to consume input;
    the bodies of the repetitions of the source never match the empty
    string. The anchors are not part of the syntax: [^] is implied by
    [re.match], and a final [$] is the continuation [at_end]. *)

Module Re.

Inductive regex : Type :=
  | Eps
  | Class (p : char → bool)
  | Seq (r1 r2 : regex)
  | Alt (r1 r2 : regex)
  | Star (r : regex).

Definition Plus (r : regex) : regex := Seq r (Star r).
Definition Opt (r : regex) : regex := Alt r Eps.
Definition Chr (c : char) : regex := Class (char_eqb c).

(** [r{n,}] *)
Fixpoint AtLeast (n : nat) (r : regex) : regex :=
  match n with
  | O => Star r
  | S n' => Seq r (AtLeast n' r)
  end.

(** A literal word *)
Fixpoint Word (cls : char → char → bool) (w : str) : regex :=
  match w with
  | [] => Eps
  | c :: w' => Seq (Class (cls c)) (Word cls w')
  end.

Section exec.
Context {A : Type}.

Fixpoint exec (r : regex) (s : str) (k : str → option A) {struct r}
  : option A :=
  match r with
  | Eps => k s
  | Class p =>
      match s with
      | c :: s' => if p c then k s' else None
      | [] => None
      end
  | Seq r1 r2 => exec r1 s (λ s1, exec r2 s1 k)
  | Alt r1 r2 =>
      match exec r1 s k with
      | Some x => Some x
      | None => exec r2 s k
      end
  | Star r1 =>
      (fix loop (fuel : nat) (s : str) {struct fuel} : option A :=
         match fuel with
         | O => k s
         | S fuel' =>
             match exec r1 s
                     (λ s1, if (length s1 <? length s)%nat
                            then loop fuel' s1 else None) with
             | Some x => Some x
             | None => k s
             end
         end) (length s) s
  end.
End exec.

(** [re.match(r, s)]: the text left after the match. *)
Definition rmatch (r : regex) (s : str) : option str := exec r s Some.

(** The continuation of a final [$]: the end of the string, or the position
    before a newline that ends the string. *)
Definition at_end (s : str) : option unit :=
  match s with
  | [] => Some ()
  | [c] => if char_eqb c 10%N then Some () else None
  | _ => None
  end.

(** [re.search(r, s)] for a pattern [r] followed by the continuation [k]:
    the first position from which the pattern matches. *)
Fixpoint search {A} (r : regex) (k : str → option A) (s : str) : option A :=
  match exec r s k with
  | Some x => Some x
  | None =>
      match s with
      | [] => None
      | _ :: s' => search r k s'
      end
  end.

(** The words of a pattern. *)
Inductive matches : regex → str → Prop :=
  | m_eps : matches Eps []
  | m_class p c : p c = true → matches (Class p) [c]
  | m_seq r1 r2 s1 s2 :
      matches r1 s1 → matches r2 s2 → matches (Seq r1 r2) (s1 ++ s2)
  | m_alt_l r1 r2 s : matches r1 s → matches (Alt r1 r2) s
  | m_alt_r r1 r2 s : matches r2 s → matches (Alt r1 r2) s
  | m_star_nil r : matches (Star r) []
  | m_star_more r s1 s2 :
      s1 ≠ [] → matches r s1 → matches (Star r) s2 →
      matches (Star r) (s1 ++ s2).

End Re.

Export Re.

(** ** Built-in containers and functions of Python *)

(** A [dict] in insertion order. [update f dflt k d] is the statement
    [d[k] = f(d[k])] of a [defaultdict] whose factory returns [dflt]: an
    existing key keeps its place, a new key goes to the end. *)
Module Dict.
Section dict.
Context {K V : Type} `{EqDecision K}.

Definition dict := list (K * V).

Fixpoint get (d : dict) (k : K) : option V :=
  match d with
  | [] => None
  | (k', v) :: d' => if decide (k = k') then Some v else get d' k
  end.

Fixpoint update (f : V → V) (dflt : V) (k : K) (d : dict) : dict :=
  match d with
  | [] => [(k, f dflt)]
  | (k', v) :: d' =>
      if decide (k = k') then (k', f v) :: d'
      else (k', v) :: update f dflt k d'
  end.

(** [d[k] = v] *)
Definition set (k : K) (v : V) (d : dict) : dict := update (λ _, v) v k d.

Definition keys (d : dict) : list K := d.*1.
End dict.
Global Arguments dict : clear implicits.
End Dict.

(** [max(l, key=key)] with integer keys: the first element whose key is
    largest. *)
Fixpoint max_from {A} (key : A → Z) (best : A) (l : list A) : A :=
  match l with
  | [] => best
  | x :: l' => max_from key (if key best <? key x then x else best) l'
  end.

Definition py_max {A} (key : A → Z) (l : list A) : option A :=
  match l with
  | [] => None
  | x :: l' => Some (max_from key x l')
  end.

(** [Counter(l)]: the number of occurrences of each element, in the order
    of first occurrence. *)
Definition Counter {K} `{EqDecision K} (l : list K) : Dict.dict K Z :=
  foldl (λ d k, Dict.update (λ n, n + 1) 0 k d) [] l.

(** [c.most_common(1)[0][0]] of a non-empty counter: the first element with
    the largest count. *)
Definition most_common_1 {K} (c : Dict.dict K Z) : option K :=
  fst <$> py_max snd c.

(** [sorted(l, key=key, reverse=rev)]. The sort of Python is stable, and
    a stable sort has one result, so insertion into a sorted list stands for
    it; [reverse=True] reverses the list, sorts it and reverses the result,
    which keeps equal elements in their original order. *)
Section sorted.
Context {A K : Type} (lt : K → K → bool) (key : A → K).

Fixpoint insert_sorted (x : A) (l : list A) : list A :=
  match l with
  | [] => [x]
  | y :: l' =>
      if lt (key y) (key x) then y :: insert_sorted x l' else x :: y :: l'
  end.

Fixpoint sort_asc (l : list A) : list A :=
  match l with
  | [] => []
  | x :: l' => insert_sorted x (sort_asc l')
  end.

Definition py_sorted (rev : bool) (l : list A) : list A :=
  if rev then reverse (sort_asc (reverse l)) else sort_asc l.
End sorted.
Global Arguments py_sorted : simpl never.

(** [range(a, b)] *)
Definition py_range (a b : Z) : list Z := seqZ a (b - a).

(** ** Data model *)

(** [(rounded font size, bold)] *)
Definition Style : Type := Z * bool.

(** A bounding box [(x0, y0, x1, y1)]; [y0] is the top ([bbox[1]]) and
    [y1] the bottom ([bbox[3]]). *)
Record BBox : Type := mkBBox { x0 : Q; y0 : Q; x1 : Q; y1 : Q }.

(** A text block as [_get_text_blocks] returns it. *)
Record Block : Type := mkBlock {
  text : str;
  style : Style;
  bbox : BBox;
  page_num : Z;
  num_lines : Z;
  num_words : Z
}.

(** An entry of the outline; [level] is the [n] of ["H<n>"]. *)
Record HeadingEntry : Type := mkHeading {
  level : Z;
  h_text : str;
  h_page_num : Z;
  h_bbox : option BBox
}.

Record Outline : Type := mkOutline {
  title : str;
  outline : list HeadingEntry
}.

(** A line of the title area: the texts of its spans and
    [round(sum(s['size'] for s in spans) / len(spans))], which the
    interpreter computes in floating point. *)
Record TitleLine : Type := mkTitleLine {
  spans : list str;
  avg_size : Z
}.

(** A layout block of the title area; [block_type] 0 is text. *)
Record TitleBlock : Type := mkTitleBlock {
  block_type : Z;
  lines : list TitleLine
}.

(** A page: its rectangle and [page.get_text(clip=Rect(0, y_start, width,
    y_end))] as a function of the two ordinates. *)
Record Page : Type := mkPage {
  width : Q;
  height : Q;
  get_text : Q → Q → str
}.

(** What the decoder gives for a document:
    - [metadata_title]: [doc.metadata.get("title", "")], empty when the
      document has no metadata;
    - [toc]: [doc.get_toc()], triples [(level, text, page)];
    - [text_blocks]: the result of [_get_text_blocks];
    - [title_area]: the blocks of the top 40% of the first page;
    - [pages]: the pages, [doc[0]], [doc[1]], ... *)
Record Document : Type := mkDocument {
  metadata_title : str;
  toc : list (Z * str * Z);
  text_blocks : list Block;
  title_area : list TitleBlock;
  pages : list Page
}.

(** ** Component 1: the outline extractor *)

Definition found {A} (o : option A) : bool :=
  match o with Some _ => true | None => false end.

(** [re.search('[a-zA-Z]', s)] *)
Definition has_alpha (s : str) : bool :=
  found (search (Class is_ascii_alpha) Some s).

(** Under [re.I] a lowercase ASCII letter of a pattern matches itself and
    its capital, and [s] also matches U+017F (long s). *)
Definition ci (p c : char) : bool :=
  char_eqb c p || char_eqb c (p - 32)%N || (char_eqb p 115%N && char_eqb c 383%N).

(** [\.(pdf|docx?|pptx?|xlsx?|cdr)], flags [re.I]; the final [$] is
    [at_end]. *)
Definition extension_pattern : regex :=
  Seq (Chr 46%N)
    (Alt (Word ci (lit "pdf"))
    (Alt (Seq (Word ci (lit "doc")) (Opt (Class (ci 120%N))))
    (Alt (Seq (Word ci (lit "ppt")) (Opt (Class (ci 120%N))))
    (Alt (Seq (Word ci (lit "xls")) (Opt (Class (ci 120%N))))
         (Word ci (lit "cdr")))))).

Definition has_extension (s : str) : bool :=
  found (search extension_pattern at_end s).

(** The test on the metadata title of [_extract_title]. *)
Definition metadata_title_ok (t : str) : bool :=
  (4 <? length t)%nat && negb (has_extension t)
  && negb (contains (lit "Microsoft Word") t).

(** The text of a line of the title area. *)
Definition line_text (l : TitleLine) : str :=
  strip (join space
           (List.filter (λ t, negb (bool_decide (t = []))) (strip <$> spans l))).

Definition title_line_ok (t : str) : bool :=
  negb (bool_decide (t = [])) && has_alpha t && (length (split t) <? 20)%nat.

(** The dictionary [font_sizes] after the loops over blocks and lines. *)
Definition add_title_line (d : Dict.dict Z (list str)) (l : TitleLine)
  : Dict.dict Z (list str) :=
  let t := line_text l in
  if title_line_ok t then
    match spans l with
    | [] => d
    | _ => Dict.update (λ ts, ts ++ [t]) [] (avg_size l) d
    end
  else d.

Definition add_title_block (d : Dict.dict Z (list str)) (b : TitleBlock)
  : Dict.dict Z (list str) :=
  if block_type b =? 0 then foldl add_title_line d (lines b) else d.

Definition font_sizes (blocks : list TitleBlock) : Dict.dict Z (list str) :=
  foldl add_title_block [] blocks.

(** The second half of [_extract_title]: the largest text of the top of
    the first page. *)
Definition title_from_page (doc : Document) : str :=
  match pages doc with
  | [] => []
  | _ =>
      let fs := font_sizes (title_area doc) in
      match py_max id (Dict.keys fs) with
      | Some max_size => join space (default [] (Dict.get fs max_size))
      | None => []
      end
  end.

Definition _extract_title (doc : Document) : str :=
  let t := strip (metadata_title doc) in
  if negb (bool_decide (t = [])) && metadata_title_ok t then t
  else title_from_page doc.

(** [_find_body_style] *)
Definition substantial (b : Block) : bool :=
  (2 <? num_lines b) || (20 <? num_words b).

Definition style_word_counts (blocks : list Block) : Dict.dict Style Z :=
  foldl (λ d b,
           if substantial b
           then Dict.update (λ n, n + num_words b) 0 (style b) d
           else d) [] blocks.

Definition _find_body_style (blocks : list Block) : option Style :=
  match style_word_counts blocks with
  | [] =>
      match Counter (style <$> blocks) with
      | [] => None
      | style_freq => most_common_1 style_freq
      end
  | counts => fst <$> py_max snd counts
  end.

(** [a < b] on floats that are finite. *)
Definition Qltb (a b : Q) : bool := negb (Qle_bool b a).

(** [<] on the sort key [(page_num, bbox[1])]: tuples compare by their
    first components that differ. *)
Definition position_lt (a b : Z * Q) : bool :=
  if a.1 =? b.1 then Qltb a.2 b.2 else a.1 <? b.1.

(** [False < True] *)
Definition bool_lt (a b : bool) : bool := negb a && b.

Definition level_map : list Z := [1; 2; 3; 4].

Definition enumerate {A} (l : list A) : list (nat * A) := imap pair l.

Section extractor.

(** The class [\d] of a [str] pattern is the Unicode category Nd. Its
    ASCII part is [0-9]; the rest depends on the Unicode database of the
    interpreter and is a parameter. *)
Variable unicode_decimal : char → bool.

Definition is_decimal (c : char) : bool :=
  if (c <? 128)%N then is_ascii_digit c else unicode_decimal c.

Definition ws : regex := Class is_space.

(** [\.{4,}] *)
Definition leader_dots : regex := AtLeast 4 (Chr 46%N).

(** The class of line 107 as the interpreter reads the source file:
    U+00E2, U+20AC, U+00A2, [*] and [-]. *)
Definition bullet_class (c : char) : bool :=
  char_eqb c 226%N || char_eqb c 8364%N || char_eqb c 162%N
  || char_eqb c 42%N || char_eqb c 45%N.

Definition alnum_class (c : char) : bool := is_ascii_alpha c || is_decimal c.

(** The alternation of line 107: one character of [bullet_class], or
    [[a-zA-Z\d]+\)]. *)
Definition item_marker : regex :=
  Alt (Class bullet_class) (Seq (Plus (Class alnum_class)) (Chr 41%N)).

(** [^\s*(marker)\s+] *)
Definition bullet_pattern : regex :=
  Seq (Star ws) (Seq item_marker (Plus ws)).

(** The group of [list_item_pattern]: [\d+] followed by any number of
    [\.\d+]. *)
Definition numbering : regex :=
  Seq (Plus (Class is_decimal))
      (Star (Seq (Chr 46%N) (Plus (Class is_decimal)))).

(** [list_item_pattern.match(s)]: optional whitespace, the group
    [numbering], then whitespace. The result is [group(1)] of the match,
    if there is one. *)
Definition list_item_match (s : str) : option str :=
  exec (Star ws) s (λ s1,
    exec numbering s1 (λ s2,
      exec (Plus ws) s2 (λ _,
        Some (take (length s1 - length s2)%nat s1)))).

(** The test of lines 99-100. *)
Definition is_candidate (st body_style : Style) : bool :=
  (body_style.1 <? st.1)
  || ((st.1 =? body_style.1) && st.2 && negb body_style.2).

(** The body of the loop of lines 95-110: [true] when the block is
    appended to [heading_blocks]. *)
Definition is_heading_block (body_style : Style) (block : Block) : bool :=
  if (30 <? num_words block) || (3 <? num_lines block) then false
  else if negb (is_candidate (style block) body_style) then false
  else
    let txt := strip (text block) in
    if found (search leader_dots Some txt)
       || ends_with_any [46; 44; 59; 58]%N txt then false
    else if found (rmatch bullet_pattern txt) then false
    else true.

(** [set(b['style'] for b in heading_blocks)]. The order in which a set
    is iterated is not specified; [style_to_level_of] is stated for any
    enumeration. *)
Definition heading_styles (heading_blocks : list Block) : list Style :=
  remove_dups (style <$> heading_blocks).

Definition size_groups_of (styles : list Style)
  : Dict.dict Z (list Style) :=
  foldl (λ d st, Dict.update (λ g, g ++ [st]) [] st.1 d) [] styles.

(** The loop of lines 123-127: the styles of the [i]-th size get the
    [i]-th level of [level_map], if there is one. *)
Definition assign_levels (size_groups : Dict.dict Z (list Style))
    (sorted_sizes : list Z) : Dict.dict Style Z :=
  foldl (λ style_to_level '(i, size),
           match level_map !! i with
           | Some lvl =>
               foldl (λ d st, Dict.set st lvl d) style_to_level
                 (py_sorted bool_lt snd true
                    (default [] (Dict.get size_groups size)))
           | None => style_to_level
           end)
        [] (enumerate sorted_sizes).

(** Lines 116-127. *)
Definition style_to_level_of (styles : list Style) : Dict.dict Style Z :=
  let size_groups := size_groups_of styles in
  let sorted_sizes := py_sorted Z.ltb id true (Dict.keys size_groups) in
  assign_levels size_groups sorted_sizes.

(** The body of the loop of lines 131-144: the entry appended to
    [final_outline] for a block, if any. *)
Definition heading_of (style_to_level : Dict.dict Style Z) (title : str)
    (block : Block) : option HeadingEntry :=
  match Dict.get style_to_level (style block) with
  | None => None
  | Some lvl =>
      let txt := normalize (text block) in
      let lvl :=
        match list_item_match txt with
        | Some group1 => count_char 46%N group1 + 1
        | None => lvl
        end in
      if (lvl =? 1) && (page_num block =? 1) && bool_decide (txt = title)
      then None
      else Some (mkHeading lvl txt (page_num block) (Some (bbox block)))
  end.

(** The sort key of line 146. Every entry of the heuristic path has a
    box. *)
Definition position (h : HeadingEntry) : Z * Q :=
  (h_page_num h, match h_bbox h with Some b => y0 b | None => 0%Q end).

(** Lines 81-82. *)
Definition native_outline (toc : list (Z * str * Z)) : list HeadingEntry :=
  let outline :=
    omap (λ '(lvl, txt, page),
            if (1 <=? lvl) && (lvl <=? 4)
            then Some (mkHeading lvl (strip txt) page None)
            else None) toc in
  List.filter (λ h, has_alpha (h_text h)) outline.

(** Lines 86-146. *)
Definition heuristic_outline (title : str) (all_blocks : list Block)
  : list HeadingEntry :=
  match all_blocks with
  | [] => []
  | _ =>
      match _find_body_style all_blocks with
      | None => []
      | Some body_style =>
          let heading_blocks :=
            List.filter (is_heading_block body_style) all_blocks in
          match heading_blocks with
          | [] => []
          | _ =>
              let style_to_level :=
                style_to_level_of (heading_styles heading_blocks) in
              let final_outline :=
                omap (heading_of style_to_level title) heading_blocks in
              py_sorted position_lt position false final_outline
          end
      end
  end.

Definition get_outline (doc : Document) : Outline :=
  let title := _extract_title doc in
  let heuristic := mkOutline title (heuristic_outline title (text_blocks doc)) in
  match toc doc with
  | [] => heuristic
  | toc =>
      match native_outline toc with
      | [] => heuristic
      | outline => mkOutline title outline
      end
  end.

End extractor.

(** ** Component 2: the sectionizer *)

(** The span of text of a section: from [start_y] on page [start_page] to
    [end_y] on page [end_page] (page indices from 0). *)
Record Bounds : Type := mkBounds {
  start_page : Z;
  start_y : Q;
  end_page : Z;
  end_y : Q
}.

(** A section. [bounds] is not a key of the dictionary of the source, it
    records the span from which [content] was read. *)
Record Section : Type := mkSection {
  section_title : str;
  page_number : Z;
  content : str;
  bounds : Bounds
}.

(** [doc[i]]. An index past the last page raises [IndexError]. To a
    negative index the decoder adds the number of pages until it is not
    negative, so [doc[-1]] is the last page; for a document without pages
    that loop does not end. [None] stands for both failures. *)
Definition get_page (doc : Document) (i : Z) : option Page :=
  let page_count := Z.of_nat (length (pages doc)) in
  if i <? 0 then
    if page_count =? 0 then None
    else pages doc !! Z.to_nat (i mod page_count)
  else pages doc !! Z.to_nat i.

Definition newline : char := 10%N.

(** [re.sub] of a newline that has no newline next to it by a space. *)
Fixpoint join_wrapped_lines (after_newline : bool) (s : str) : str :=
  match s with
  | [] => []
  | c :: s' =>
      if char_eqb c newline then
        let before_newline :=
          match s' with c' :: _ => char_eqb c' newline | [] => false end in
        (if negb after_newline && negb before_newline then 32%N else c)
          :: join_wrapped_lines true s'
      else c :: join_wrapped_lines false s'
  end.

(** [re.sub] of a space and a newline by a newline. *)
Fixpoint fold_space_newline (s : str) : str :=
  match s with
  | [] => []
  | c :: s' =>
      match s' with
      | c' :: s'' =>
          if char_eqb c 32%N && char_eqb c' newline
          then newline :: fold_space_newline s''
          else c :: fold_space_newline s'
      | [] => [c]
      end
  end.

(** [re.sub] of two or more newlines by one. *)
Fixpoint collapse_newlines (after_newline : bool) (s : str) : str :=
  match s with
  | [] => []
  | c :: s' =>
      if char_eqb c newline then
        if after_newline then collapse_newlines true s'
        else c :: collapse_newlines true s'
      else c :: collapse_newlines false s'
  end.

Definition clean_content (s : str) : str :=
  strip (collapse_newlines false (fold_space_newline (join_wrapped_lines false s))).

(** Lines 182-190: the span of the section of [heading], whose box is
    [box], when [next] is the entry after it in the outline. *)
Definition section_bounds (doc : Document) (heading : HeadingEntry)
    (box : BBox) (next : option HeadingEntry) : option Bounds :=
  match next ≫= (λ n, pair n <$> h_bbox n) with
  | Some (next_heading, next_box) =>
      Some (mkBounds (h_page_num heading - 1) (y1 box)
                     (h_page_num next_heading - 1) (y0 next_box))
  | None =>
      let last := Z.of_nat (length (pages doc)) - 1 in
      page ← get_page doc last;
      Some (mkBounds (h_page_num heading - 1) (y1 box) last (height page))
  end.

(** The body of the loop of lines 192-198 for one page. *)
Definition page_content (doc : Document) (b : Bounds) (page_num : Z)
  : option str :=
  page ← get_page doc page_num;
  let clip_y_start := if page_num =? start_page b then start_y b else 0%Q in
  let clip_y_end := if page_num =? end_page b then end_y b else height page in
  Some (if Qltb clip_y_start clip_y_end
        then get_text page clip_y_start clip_y_end else []).

Definition section_of (doc : Document) (heading : HeadingEntry)
    (box : BBox) (next : option HeadingEntry) : option Section :=
  b ← section_bounds doc heading box next;
  parts ← mapM (page_content doc b) (py_range (start_page b) (end_page b + 1));
  Some (mkSection (h_text heading) (h_page_num heading)
          (h_text heading ++ [newline] ++ clean_content (concat parts)) b).

(** [get_sections] on [self.outline]; [None] when a page index is out of
    range. An entry without a box is passed over. *)
Fixpoint get_sections (doc : Document) (outline : list HeadingEntry)
  : option (list Section) :=
  match outline with
  | [] => Some []
  | heading :: rest =>
      match h_bbox heading with
      | None => get_sections doc rest
      | Some box =>
          sec ← section_of doc heading box (head rest);
          secs ← get_sections doc rest;
          Some (sec :: secs)
      end
  end.

(** [DocumentSectionizer(pdf_path).get_sections()]: the outline is the one
    of [get_outline]. *)
Definition document_sections (unicode_decimal : char → bool) (doc : Document)
  : option (list Section) :=
  get_sections doc (outline (get_outline unicode_decimal doc)).

(** ** Component 3: the semantic ranker *)

(** A section after the ranker has written its score. *)
Record Ranked (score : Type) : Type := mkRanked {
  section : Section;
  relevance_score : score
}.
Global Arguments mkRanked {score}.
Global Arguments section {score}.
Global Arguments relevance_score {score}.

Section ranker.
(** The embedding model and the cosine similarity are outside the
    program; scores are floats, of which only [<] is used. *)
Context {vec score : Type}.
Variable encode : str → vec.
Variable cosine_similarity : vec → vec → score.
Variable score_lt : score → score → bool.

Definition query (persona job_to_be_done : str) : str :=
  lit "User Persona: " ++ persona ++ lit ". Task: " ++ job_to_be_done.

Definition rank_sections (persona job_to_be_done : str)
    (all_sections : list Section) : list (Ranked score) :=
  match all_sections with
  | [] => []
  | _ =>
      let query_embedding := encode (query persona job_to_be_done) in
      let section_embeddings := encode <$> (content <$> all_sections) in
      let similarities :=
        cosine_similarity query_embedding <$> section_embeddings in
      py_sorted score_lt relevance_score true
        (zip_with mkRanked all_sections similarities)
  end.
End ranker.

(** ** The other functions of the program *)

(** *** Opening a document *)

(** [^[a-zA-Z]:\\]: a drive letter, a colon and a backslash. *)
Definition drive_prefix : regex :=
  Seq (Class is_ascii_alpha) (Seq (Chr 58%N) (Chr 92%N)).

(** The prefix of line 25: two backslashes, a question mark and a
    backslash. *)
Definition long_path_prefix : str := [92; 92; 63; 92]%N.

(** Lines 24-25 of [__init__]: the path that is given to the decoder. *)
Definition open_path (pdf_path : str) : str :=
  if (260 <? length pdf_path)%nat && found (rmatch drive_prefix pdf_path)
  then long_path_prefix ++ pdf_path
  else pdf_path.

(** *** Pass 1: the text blocks *)

(** What the decoder gives for a page: the layout blocks of
    [page.get_text("dict")["blocks"]], their lines and spans. *)
Record RawSpan : Type := mkRawSpan {
  span_text : str;
  span_size : Q;
  span_font : str
}.

Record RawBlock : Type := mkRawBlock {
  raw_type : Z;
  raw_lines : list (list RawSpan);
  raw_bbox : BBox
}.

Record RawPage : Type := mkRawPage {
  number : Z;
  raw_blocks : list RawBlock
}.

(** [round(x)] of a finite float: the nearest integer, the even one of the
    two when [x] is halfway. *)
Definition py_round (x : Q) : Z :=
  let d := Z.pos (Qden x) in
  let f := Qnum x / d in
  match 2 * (Qnum x mod d) ?= d with
  | Lt => f
  | Gt => f + 1
  | Eq => if Z.even f then f else f + 1
  end.

Definition bold_keywords : list str :=
  lit <$> ["bold"; "black"; "heavy"; "condb"; "cbi"]%string.

Section text_blocks.

(** [str.lower] follows the Unicode database of the interpreter and is a
    parameter. *)
Variable lower : str → str.

Definition _is_bold_by_name (font_name : str) : bool :=
  existsb (λ x, contains x (lower font_name)) bold_keywords.

(** The spans of a block, line after line. *)
Definition block_spans (block : RawBlock) : list RawSpan :=
  concat (raw_lines block).

(** [block_text] after the loops of lines 41-44. *)
Definition block_text (block : RawBlock) : str :=
  foldl (λ acc span, acc ++ span_text span ++ space) [] (block_spans block).

(** [span_styles] after the loops of lines 41-44. *)
Definition span_styles (block : RawBlock) : list Style :=
  (λ span, (py_round (span_size span), _is_bold_by_name (span_font span)))
    <$> block_spans block.

(** The body of the loop of lines 37-58: the block appended to [blocks]
    for a layout block, if any. *)
Definition text_block_of (page : RawPage) (block : RawBlock) : option Block :=
  if raw_type block =? 0 then
    if bool_decide (strip (block_text block) = [])
       || negb (has_alpha (block_text block)) then None
    else
      match span_styles block with
      | [] => None
      | styles =>
          dominant_style ← most_common_1 (Counter styles);
          Some (mkBlock (strip (block_text block)) dominant_style
                  (raw_bbox block) (number page + 1)
                  (Z.of_nat (length (raw_lines block)))
                  (Z.of_nat (length (split (block_text block)))))
      end
  else None.

Definition _get_text_blocks (doc_pages : list RawPage) : list Block :=
  concat ((λ page, omap (text_block_of page) (raw_blocks page)) <$> doc_pages).

End text_blocks.

(** *** The main program *)

(** The configuration after lines 243-245: [role], [task] and, for each
    entry of [documents], its [filename] if it has that key. *)
Record Config : Type := mkConfig {
  role : str;
  task : str;
  documents : list (option str)
}.

(** A section with the key [document] that [main] adds. *)
Record DocSection : Type := mkDocSection {
  document : str;
  doc_section : Section
}.

Record ExtractedSection : Type := mkExtractedSection {
  es_document : str;
  es_section_title : str;
  importance_rank : Z;
  es_page_number : Z
}.

Record SubsectionAnalysis : Type := mkSubsectionAnalysis {
  sa_document : str;
  refined_text : str;
  sa_page_number : Z
}.

Record OutputData : Type := mkOutputData {
  input_documents : list str;
  out_persona : str;
  out_job_to_be_done : str;
  extracted_sections : list ExtractedSection;
  subsection_analysis : list SubsectionAnalysis
}.

Section main.

Context {vec score : Type}.
Variable unicode_decimal : char → bool.
Variable encode : str → vec.
Variable cosine_similarity : vec → vec → score.
Variable score_lt : score → score → bool.

(** The operating system: [os.path.join(pdf_dir, filename)],
    [os.path.basename], and the document that the decoder reads at a path,
    [None] when the file does not exist or cannot be opened. *)
Variable pdf_path_of : str → str.
Variable basename : str → str.
Variable open_document : str → option Document.

(** The body of the loop of lines 249-262: the sections that a path adds to
    [all_sections]. A path whose file is missing, or whose processing
    raises, adds none. *)
Definition sections_of_path (pdf_path : str) : list DocSection :=
  match open_document pdf_path with
  | None => []
  | Some doc =>
      match document_sections unicode_decimal doc with
      | None => []
      | Some sections => mkDocSection (basename pdf_path) <$> sections
      end
  end.

(** Lines 247-262. *)
Definition collect_sections (config : Config) : list DocSection :=
  let pdf_paths := pdf_path_of <$> omap id (documents config) in
  concat (sections_of_path <$> pdf_paths).

(** [rank_sections] on the sections of [main], which have the key
    [document] besides those of the sectionizer. *)
Definition rank_doc_sections (persona job_to_be_done : str)
    (all_sections : list DocSection) : list (DocSection * score) :=
  match all_sections with
  | [] => []
  | _ =>
      let query_embedding := encode (query persona job_to_be_done) in
      let section_embeddings :=
        encode <$> ((λ s, content (doc_section s)) <$> all_sections) in
      let similarities :=
        cosine_similarity query_embedding <$> section_embeddings in
      py_sorted score_lt snd true (zip all_sections similarities)
  end.

(** Lines 269-272. *)
Definition extracted_of (ranked_sections : list (DocSection * score))
  : list ExtractedSection :=
  imap (λ i s, mkExtractedSection (document s.1)
                 (section_title (doc_section s.1)) (Z.of_nat i + 1)
                 (page_number (doc_section s.1)))
       (take 10 ranked_sections).

Definition subsections_of (ranked_sections : list (DocSection * score))
  : list SubsectionAnalysis :=
  (λ s, mkSubsectionAnalysis (document s.1) (content (doc_section s.1))
          (page_number (doc_section s.1)))
    <$> take 5 ranked_sections.

(** Lines 243-272: the data that [main] writes, when the configuration
    file is read and the model of the ranker loads. [None] stands for the
    [KeyError] of line 266 when an entry of [documents] has no
    [filename]. *)
Definition main_output (config : Config) : option OutputData :=
  let ranked_sections :=
    rank_doc_sections (role config) (task config) (collect_sections config) in
  filenames ← mapM id (documents config);
  Some (mkOutputData filenames (role config) (task config)
          (extracted_of ranked_sections) (subsections_of ranked_sections)).

End main.

(** * Specification

    The notions in which the properties are stated. *)

(** In a list sorted in ascending order no element is followed by one with
    a smaller key. *)
Definition not_after {A K} (lt : K → K → bool) (key : A → K) (x y : A) : Prop :=
  lt (key y) (key x) = false.

(** The sum of the weights [w x] of the elements [x] of [l] that satisfy
    [p] and have the key [k]. *)
Definition tally {A K} `{EqDecision K} (p : A → bool) (w : A → Z)
    (kf : A → K) (k : K) (l : list A) : Z :=
  foldr (λ x n, if p x && bool_decide (kf x = k) then w x + n else n) 0 l.

(** The words of the substantial blocks of style [s]. *)
Definition total_words (s : Style) (blocks : list Block) : Z :=
  tally substantial num_words style s blocks.

(** The number of blocks of style [s]. *)
Definition block_count (s : Style) (blocks : list Block) : Z :=
  tally (λ _, true) (λ _, 1) id s (style <$> blocks).

(** One step of the loop that builds such sums in a dictionary. *)
Definition tally_step {A K} `{EqDecision K} (p : A → bool) (w : A → Z)
    (kf : A → K) (d : Dict.dict K Z) (x : A) : Dict.dict K Z :=
  if p x then Dict.update (λ n, n + w x) 0 (kf x) d else d.

(** The font sizes of the heading candidates. *)
Definition candidate_sizes (heading_blocks : list Block) : list Z :=
  (λ b, (style b).1) <$> heading_blocks.

(** The rank of a size among the distinct sizes in descending order, from
    0: the number of distinct sizes that are larger. *)
Definition size_rank (sizes : list Z) (z : Z) : nat :=
  length (filter (λ z', z < z') (remove_dups sizes)).

(** The loop of a repetition in [exec], for a body [body]. *)
Section star_loop.
Context {A : Type} (body : str → (str → option A) → option A).
Context (k : str → option A).

Fixpoint star_loop (fuel : nat) (s : str) : option A :=
  match fuel with
  | O => k s
  | S fuel' =>
      match body s (λ s1, if (length s1 <? length s)%nat
                          then star_loop fuel' s1 else None) with
      | Some x => Some x
      | None => k s
      end
  end.
End star_loop.

(** *** Candidate filtering *)

(** A style is more prominent than the body style: a larger size, or the
    same size and bold where the body style is not. *)
Definition more_prominent (st body_style : Style) : Prop :=
  body_style.1 < st.1
  ∨ (st.1 = body_style.1 ∧ st.2 = true ∧ body_style.2 = false).








(** The bullet U+2022 and the three characters that stand in its place in
    the class of line 107. *)
Definition bullet : char := 8226%N.




(** *** Inputs of the examples *)

(** A Unicode database without digits outside ASCII; the examples are in
    ASCII. *)
Definition ascii_only : char → bool := λ _, false.

Definition box (top bottom : Z) : BBox :=
  mkBBox 0 (inject_Z top) 100 (inject_Z bottom).

Definition body_block : Block :=
  mkBlock (lit "lorem ipsum dolor sit amet consectetur adipiscing elit")
    (12, false) (box 100 200) 1 5 40.

(** A list item with a bullet: U+2022, a space and text. *)
Definition bullet_block : Block :=
  mkBlock (bullet :: lit " First item") (14, true) (box 400 420) 1 1 2.


(** A text that starts with U+20AC and a space. *)
Definition euro_block : Block :=
  mkBlock (8364%N :: lit " Overview") (14, true) (box 300 320) 1 1 2.

Definition dot : str := [46%N].

(** A non-empty run of decimal digits. *)
Definition digits (unicode_decimal : char → bool) (d : str) : Prop :=
  d ≠ [] ∧ Forall (λ c, is_decimal unicode_decimal c = true) d.

Definition heading_block (txt : string) (size : Z) (top : Z) : Block :=
  mkBlock (lit txt) (size, true) (box top (top + 20)) 1 1 2.

(** Headings in five sizes above a body of size 12; the numbered heading
    has the smallest. *)
Definition setup_block : Block := heading_block "3.2.1 Setup" 14 600.

Definition five_size_blocks : list Block :=
  [heading_block "Part One" 24 10; heading_block "Chapter One" 20 100;
   heading_block "Section One" 18 200; body_block;
   heading_block "Topic One" 16 500; setup_block].

Definition one_page : list Page := [mkPage 600 800 (λ _ _, [])].

Definition five_size_document : Document :=
  mkDocument [] [] five_size_blocks [] one_page.

(** A heading with five numbers in its prefix. *)
Definition deep_block : Block := heading_block "1.2.3.4.5 Details" 14 300.

Definition deep_document : Document :=
  mkDocument [] [] [body_block; deep_block] [] one_page.

(** *** The title *)

(** The extensions of [extension_pattern]. *)
Definition extensions : list str :=
  lit <$> ["pdf"; "doc"; "docx"; "ppt"; "pptx"; "xls"; "xlsx"; "cdr"]%string.

(** [e] is the word [w] of lowercase letters, in capitals or not. *)
Definition spells (w e : str) : Prop :=
  Forall2 (λ p c, c = p ∨ c = (p - 32)%N) w e.

(** The text ends in a period and one of the extensions. *)
Definition has_extension_suffix (t : str) : Prop :=
  ∃ pre w e, w ∈ extensions ∧ spells w e ∧ t = pre ++ dot ++ e.

(** A document without metadata whose first page shows a file name. *)
Definition file_name_document : Document :=
  mkDocument [] [] []
    [mkTitleBlock 0 [mkTitleLine [lit "report.pdf"] 24]] one_page.

(** *** The native outline *)

(** An entry of the table of contents is kept when its level is between 1
    and 4 and its text, without the whitespace around it, has a letter of
    [a-z] or [A-Z]. *)
Definition kept_toc_entry (e : Z * str * Z) : Prop :=
  1 ≤ e.1.1 ≤ 4 ∧ Exists (λ c, is_ascii_alpha c = true) (strip e.1.2).

Global Instance kept_toc_entry_dec e : Decision (kept_toc_entry e).
Proof. unfold kept_toc_entry. apply _. Defined.

Definition toc_entry (e : Z * str * Z) : HeadingEntry :=
  mkHeading e.1.1 (strip e.1.2) e.2 None.


(** *** Sections *)

(** Two headings on one page, with body text between them. *)
Definition two_heading_document : Document :=
  mkDocument [] []
    [heading_block "Introduction" 18 10; body_block;
     heading_block "Background" 14 300] [] one_page.

(** A document with a native outline of one entry. *)
Definition native_document : Document :=
  mkDocument [] [(1, lit "Introduction", 1)]
    [heading_block "Introduction" 18 10; body_block] [] one_page.

(** *** Ranking *)

(** Two ranked sections have the same score: neither score is less than
    the other. *)
Definition same_score {score} (score_lt : score → score → bool)
    (x y : Ranked score) : bool :=
  negb (score_lt (relevance_score x) (relevance_score y))
  && negb (score_lt (relevance_score y) (relevance_score x)).

(** A section with its score for a query. *)
Definition scored {vec score} (encode : str → vec)
    (cosine_similarity : vec → vec → score) (persona job_to_be_done : str)
    (s : Section) : Ranked score :=
  mkRanked s (cosine_similarity (encode (query persona job_to_be_done))
                                (encode (content s))).

(** Sections for the examples, and an embedding for them: the length of
    the text, with the difference to the query as score. *)
Definition plain_section (t : string) : Section :=
  mkSection (lit t) 1 (lit t) (mkBounds 0 0%Q 0 0%Q).

Definition length_embedding (s : str) : Z := Z.of_nat (length s).

Definition closeness (q v : Z) : Z := - Z.abs (q - v).

(** The heading candidates of [five_size_blocks]. *)
Definition five_headings : list Block :=
  List.filter (is_heading_block ascii_only (12, false)) five_size_blocks.

(** A document whose metadata has a title. *)
Definition titled_document : Document :=
  mkDocument (lit " Annual Report 2024 ") [] [] [] one_page.

Definition example_sections : list Section :=
  [plain_section "tax law"; plain_section "hiking trails";
   plain_section "tax code"; plain_section "a walk"].

(** The scenario of the specification: a heading of size 18, body text of
    size 12, and a numbered heading of size 14. *)
Definition scenario_document : Document :=
  mkDocument [] []
    [heading_block "Introduction" 18 10; body_block;
     heading_block "1.1 Background" 14 300] [] one_page.

(** *** Texts *)

(** The characters of a text that are not whitespace, in their order. *)
Definition visible (s : str) : str :=
  List.filter (λ c, negb (is_space c)) s.

(** A word: a non-empty text without whitespace. *)
Definition word (w : str) : Prop :=
  w ≠ [] ∧ Forall (λ c, is_space c = false) w.

(** *** The outline *)

(** The number of occurrences of [x] in [l]. *)
Definition occurrences {A} `{EqDecision A} (x : A) (l : list A) : Z :=
  Z.of_nat (length (filter (λ y, y = x) l)).

(** [x] is not below [y] on the pages: it is on an earlier page, or on the
    same page with its top not lower. *)
Definition reading_order (x y : HeadingEntry) : Prop :=
  h_page_num x < h_page_num y
  ∨ (h_page_num x = h_page_num y ∧ ((position x).2 <= (position y).2)%Q).

(** [str.lower] on ASCII texts, for the examples. *)
Definition ascii_lower (s : str) : str :=
  (λ c, if in_range 65%N 90%N c then (c + 32)%N else c) <$> s.

Definition raw_heading (txt : string) (size : Q) (font : string) (top : Z)
  : RawBlock :=
  mkRawBlock 0 [[mkRawSpan (lit txt) size (lit font)]] (box top (top + 20)).

Definition raw_pages_example : list RawPage :=
  [mkRawPage 0
     [raw_heading "Introduction " (37 # 2) "Arial-BoldMT" 10;
      mkRawBlock 1 [] (box 40 90);
      mkRawBlock 0
        [[mkRawSpan (lit "Body text of") (12 # 1) (lit "Arial");
          mkRawSpan (lit "the page,") (12 # 1) (lit "Arial")];
         [mkRawSpan (lit "in three lines.") (12 # 1) (lit "Arial")];
         [mkRawSpan (lit "1") (8 # 1) (lit "Arial")]]
        (box 100 200);
      raw_heading "1 2 3" (12 # 1) "Arial" 300]].

(** *** The title of the first page *)

(** The lines of the title area that can be part of the title, with their
    sizes: the lines of the blocks of type 0 whose text is not empty, has a
    letter and has less than 20 words. *)
Definition title_lines (blocks : list TitleBlock) : list (Z * str) :=
  b ← blocks;
  if block_type b =? 0 then
    l ← lines b;
    if title_line_ok (line_text l) then [(avg_size l, line_text l)] else []
  else [].

(** *** The content of a section *)

(** The text has an empty line: two newlines in a row. *)
Definition has_blank_line (s : str) : Prop :=
  ∃ pre post, s = pre ++ [newline; newline] ++ post.

(** *** The metadata title *)

(** The text ends in a period and one of the extensions, in the letters
    that the pattern of line 150 accepts under [re.I]. *)
Definition ends_with_extension (t : str) : Prop :=
  ∃ pre w e, w ∈ extensions ∧ Forall2 (λ p c, ci p c = true) w e
             ∧ t = pre ++ dot ++ e.

(** [needle in s] *)
Definition has_substring (needle s : str) : Prop :=
  ∃ pre post, s = pre ++ needle ++ post.

(** *** Examples for pass 1, the outline and the sections *)

(** The blocks of pass 1 for [raw_pages_example]. *)
Definition introduction_text_block : Block :=
  mkBlock (lit "Introduction") (18, true) (box 10 30) 1 1 1.

Definition body_text_block : Block :=
  mkBlock (lit "Body text of the page, in three lines. 1") (12, false)
    (box 100 200) 1 3 9.

(** A document whose text blocks are those of pass 1. *)
Definition pass1_document : Document :=
  mkDocument [] [] (_get_text_blocks ascii_lower raw_pages_example) []
    one_page.

(** The entries of the outline of [two_heading_document] and its
    sections. *)
Definition introduction_entry : HeadingEntry :=
  mkHeading 1 (lit "Introduction") 1 (Some (box 10 30)).

Definition background_entry : HeadingEntry :=
  mkHeading 2 (lit "Background") 1 (Some (box 300 320)).

Definition numbered_entry : HeadingEntry :=
  mkHeading 2 (lit "1.1 Background") 1 (Some (box 300 320)).

Definition introduction_section : Section :=
  mkSection (lit "Introduction") 1 (lit "Introduction" ++ [newline])
    (mkBounds 0 (inject_Z 30) 0 (inject_Z 300)).

Definition background_section : Section :=
  mkSection (lit "Background") 1 (lit "Background" ++ [newline])
    (mkBounds 0 (inject_Z 320) 0 (inject_Z 800)).

(** *** Examples for the main program *)

(** A directory with two documents. *)
Definition example_files (pdf_path : str) : option Document :=
  if decide (pdf_path = lit "a.pdf") then Some two_heading_document
  else if decide (pdf_path = lit "b.pdf") then Some scenario_document
  else None.

Definition example_config : Config :=
  mkConfig (lit "Travel Planner") (lit "Plan a trip")
    [Some (lit "a.pdf"); Some (lit "missing.pdf"); Some (lit "b.pdf")].


(** A path of 303 characters on a drive. *)
Definition long_path : str := lit "C:\" ++ replicate 300 97%N.

(** * Properties *)

(** ** Lists *)

Lemma existsb_false_iff {A} (p : A → bool) l :
  existsb p l = false ↔ ∀ x, x ∈ l → p x = false.
Proof.
  induction l as [|y l IH]; simpl.
  - split; [intros _ x Hx; inversion Hx|done].
  - rewrite orb_false_iff, IH. set_solver.
Qed.


(** ** The sort *)

Section sorted_facts.
Context {A K : Type} (lt : K → K → bool) (key : A → K).

Lemma insert_sorted_Permutation x l : insert_sorted lt key x l ≡ₚ x :: l.
Proof.
  induction l as [|y l IH]; simpl; [done|].
  destruct (lt (key y) (key x)); [|done].
  rewrite IH. apply Permutation_swap.
Qed.

Lemma sort_asc_Permutation l : sort_asc lt key l ≡ₚ l.
Proof.
  induction l as [|x l IH]; simpl; [done|].
  by rewrite insert_sorted_Permutation, IH.
Qed.

Lemma py_sorted_Permutation rev l : py_sorted lt key rev l ≡ₚ l.
Proof.
  unfold py_sorted. destruct rev.
  - by rewrite reverse_Permutation, sort_asc_Permutation, reverse_Permutation.
  - apply sort_asc_Permutation.
Qed.

Lemma elem_of_py_sorted rev l x : x ∈ py_sorted lt key rev l ↔ x ∈ l.
Proof. by rewrite py_sorted_Permutation. Qed.

Lemma length_py_sorted rev l : length (py_sorted lt key rev l) = length l.
Proof. by rewrite py_sorted_Permutation. Qed.

(** Filtering commutes with the sort when the filter keeps a class of
    elements that the sort never swaps. *)
Lemma filter_insert_sorted (p : A → bool) x l :
  (∀ y, y ∈ l → p x = true → p y = true → lt (key y) (key x) = false) →
  List.filter p (insert_sorted lt key x l) = List.filter p (x :: l).
Proof.
  induction l as [|y l IH]; intros Hp; simpl; [done|].
  destruct (lt (key y) (key x)) eqn:Hlt; simpl; [|done].
  rewrite IH by (intros; apply Hp; [by right|done..]).
  simpl. destruct (p x) eqn:Hx, (p y) eqn:Hy; try done.
  rewrite Hp in Hlt; [done|by left|done..].
Qed.

Lemma filter_sort_asc (p : A → bool) l :
  (∀ x y, p x = true → p y = true → lt (key y) (key x) = false) →
  List.filter p (sort_asc lt key l) = List.filter p l.
Proof.
  intros Hp. induction l as [|x l IH]; simpl; [done|].
  rewrite filter_insert_sorted by eauto. simpl. by rewrite IH.
Qed.

Lemma filter_reverse (p : A → bool) l :
  List.filter p (reverse l) = reverse (List.filter p l).
Proof.
  induction l as [|x l IH]; simpl; [done|].
  rewrite reverse_cons, List.filter_app, IH. simpl.
  destruct (p x); [by rewrite reverse_cons|by rewrite app_nil_r].
Qed.

Lemma filter_py_sorted (p : A → bool) rev l :
  (∀ x y, p x = true → p y = true → lt (key y) (key x) = false) →
  List.filter p (py_sorted lt key rev l) = List.filter p l.
Proof.
  intros Hp. unfold py_sorted. destruct rev.
  - by rewrite filter_reverse, filter_sort_asc, filter_reverse,
      reverse_involutive.
  - by apply filter_sort_asc.
Qed.

(** The order of the keys behaves like [<] on numbers. *)
Hypothesis lt_asym : ∀ a b, lt a b = true → lt b a = false.
Hypothesis lt_neg_trans :
  ∀ a b c, lt a b = false → lt b c = false → lt a c = false.

Lemma insert_sorted_StronglySorted x l :
  StronglySorted (not_after lt key) l →
  StronglySorted (not_after lt key) (insert_sorted lt key x l).
Proof.
  induction 1 as [|y l Hl IH Hy]; simpl.
  - by repeat constructor.
  - destruct (lt (key y) (key x)) eqn:Hlt.
    + constructor; [done|].
      rewrite Forall_forall. intros z.
      rewrite insert_sorted_Permutation, elem_of_cons.
      intros [->|Hz]; [by apply lt_asym|].
      rewrite Forall_forall in Hy. by apply Hy.
    + constructor; [by constructor|].
      constructor; [done|].
      rewrite Forall_forall in Hy |- *. intros z Hz.
      unfold not_after in *. eapply lt_neg_trans; [by apply Hy|done].
Qed.

Lemma sort_asc_StronglySorted l : StronglySorted (not_after lt key) (sort_asc lt key l).
Proof.
  induction l; simpl; [constructor|by apply insert_sorted_StronglySorted].
Qed.

Lemma StronglySorted_reverse (R : relation A) l :
  StronglySorted R l → StronglySorted (flip R) (reverse l).
Proof.
  induction 1 as [|x l Hl IH Hx]; [constructor|].
  rewrite reverse_cons. apply StronglySorted_app_2; [|done|by repeat constructor].
  intros y z Hy Hz. apply list_elem_of_singleton in Hz as ->.
  rewrite elem_of_reverse in Hy. rewrite Forall_forall in Hx. unfold flip. by apply Hx.
Qed.

(** With [reverse=True] no element is followed by one with a larger
    key. *)
Lemma py_sorted_descending l :
  StronglySorted (λ x y, lt (key x) (key y) = false) (py_sorted lt key true l).
Proof.
  unfold py_sorted.
  apply (StronglySorted_reverse (not_after lt key)), sort_asc_StronglySorted.
Qed.

Lemma py_sorted_ascending l :
  StronglySorted (not_after lt key) (py_sorted lt key false l).
Proof. apply sort_asc_StronglySorted. Qed.
End sorted_facts.

(** ** Dictionaries, counters and [max] *)

Section dict_facts.
Context {K V : Type} `{EqDecision K}.
Implicit Types (d : Dict.dict K V) (k : K) (v : V).

Lemma get_update f dflt k d k' :
  Dict.get (Dict.update f dflt k d) k' =
    if decide (k' = k) then Some (f (default dflt (Dict.get d k)))
    else Dict.get d k'.
Proof.
  induction d as [|[k0 v0] d IH]; simpl.
  - by repeat case_decide.
  - destruct (decide (k = k0)) as [->|Hne]; simpl.
    + by repeat case_decide.
    + rewrite IH. repeat case_decide; simplify_eq; done.
Qed.

Lemma get_set k v d k' :
  Dict.get (Dict.set k v d) k' =
    if decide (k' = k) then Some v else Dict.get d k'.
Proof. unfold Dict.set. by rewrite get_update. Qed.

Lemma get_foldl_set (l : list K) v d k :
  Dict.get (foldl (λ d' k', Dict.set k' v d') d l) k =
    if decide (k ∈ l) then Some v else Dict.get d k.
Proof.
  revert d. induction l as [|k0 l IH]; intros d; cbn [foldl].
  - destruct (decide (k ∈ [])) as [Hin|_]; [by inversion Hin|done].
  - rewrite IH, get_set.
    destruct (decide (k ∈ l)), (decide (k = k0)), (decide (k ∈ k0 :: l));
      set_solver.
Qed.

Lemma get_Some_elem_of d k v : Dict.get d k = Some v → (k, v) ∈ d.
Proof.
  induction d as [|[k0 v0] d IH]; simpl; [done|].
  case_decide; intros; simplify_eq; [left|right; auto].
Qed.

Lemma get_None_keys d k : Dict.get d k = None ↔ k ∉ Dict.keys d.
Proof.
  unfold Dict.keys. induction d as [|[k0 v0] d IH]; simpl.
  - split; [intros _; apply not_elem_of_nil|done].
  - rewrite not_elem_of_cons. case_decide; naive_solver.
Qed.

Lemma elem_of_keys d k : k ∈ Dict.keys d ↔ is_Some (Dict.get d k).
Proof.
  destruct (Dict.get d k) eqn:Hg.
  - split; [eauto|]. intros _.
    destruct (decide (k ∈ Dict.keys d)) as [|Hn]; [done|].
    apply get_None_keys in Hn. congruence.
  - apply get_None_keys in Hg. split; [done|]. by intros [? ?].
Qed.

Lemma elem_of_get d k v :
  NoDup (Dict.keys d) → (k, v) ∈ d → Dict.get d k = Some v.
Proof.
  unfold Dict.keys. induction d as [|[k0 v0] d IH]; simpl.
  - intros _ Hin. by inversion Hin.
  - rewrite NoDup_cons, elem_of_cons. intros [Hk0 Hnd] [Heq|Hin].
    + simplify_eq. by rewrite decide_True.
    + case_decide as Hk; [|by apply IH].
      subst k0. destruct Hk0. apply list_elem_of_fmap. by exists (k, v).
Qed.

Lemma keys_update f dflt k d :
  Dict.keys (Dict.update f dflt k d) =
    if decide (k ∈ Dict.keys d) then Dict.keys d else Dict.keys d ++ [k].
Proof.
  unfold Dict.keys. induction d as [|[k0 v0] d IH]; cbn [Dict.update fmap list_fmap fst].
  - destruct (decide (k ∈ [])) as [Hin|_]; [by inversion Hin|done].
  - destruct (decide (k = k0)) as [->|Hne]; cbn [fmap list_fmap fst].
    + rewrite decide_True by left. done.
    + rewrite IH.
      destruct (decide (k ∈ d.*1)), (decide (k ∈ k0 :: d.*1)); set_solver.
Qed.

Lemma NoDup_keys_update f dflt k d :
  NoDup (Dict.keys d) → NoDup (Dict.keys (Dict.update f dflt k d)).
Proof.
  intros Hnd. rewrite keys_update. case_decide; [done|].
  apply NoDup_app. split_and!; [done| |apply NoDup_singleton].
  intros x Hx ->%list_elem_of_singleton. done.
Qed.
End dict_facts.

Section max_facts.
Context {A : Type} (key : A → Z).

Lemma max_from_spec best l :
  max_from key best l ∈ best :: l ∧
  ∀ y, y ∈ best :: l → key y ≤ key (max_from key best l).
Proof.
  revert best. induction l as [|x l IH]; intros best; simpl.
  - split; [left|]. by intros y ->%list_elem_of_singleton.
  - destruct (IH (if key best <? key x then x else best)) as [Hin Hmax].
    split.
    + destruct (key best <? key x); set_solver.
    + intros y Hy.
      assert (key best ≤ key (if key best <? key x then x else best) ∧
              key x ≤ key (if key best <? key x then x else best)) as [??].
      { destruct (Z.ltb_spec (key best) (key x)); lia. }
      apply elem_of_cons in Hy as [->|Hy].
      { etrans; [|apply Hmax; left]; done. }
      apply elem_of_cons in Hy as [->|Hy].
      { etrans; [|apply Hmax; left]; done. }
      apply Hmax. by right.
Qed.

Lemma py_max_Some l x :
  py_max key l = Some x → x ∈ l ∧ ∀ y, y ∈ l → key y ≤ key x.
Proof.
  destruct l as [|x0 l]; simpl; [done|].
  intros [= <-]. apply max_from_spec.
Qed.

Lemma py_max_is_Some l : l ≠ [] → is_Some (py_max key l).
Proof. destruct l; [done|]. simpl. eauto. Qed.
End max_facts.

(** The dictionary that a loop of [d[kf(x)] += w(x)] over the elements with
    [p] builds. *)
Section tally_facts.
Context {A K : Type} `{EqDecision K}.
Context (p : A → bool) (w : A → Z) (kf : A → K).

Local Abbreviation tally_step := (tally_step p w kf).

Lemma get_tally l d k :
  Dict.get (foldl tally_step d l) k =
    match Dict.get d k with
    | Some n => Some (n + tally p w kf k l)
    | None =>
        if existsb (λ x, p x && bool_decide (kf x = k)) l
        then Some (tally p w kf k l) else None
    end.
Proof.
  revert d. induction l as [|x l IH]; intros d; simpl.
  - destruct (Dict.get d k); [f_equal; lia|done].
  - rewrite IH. unfold tally_step.
    destruct (p x); simpl.
    + rewrite get_update. case_decide as Hk.
      * subst k. rewrite bool_decide_eq_true_2 by done. simpl.
        destruct (Dict.get d (kf x)); simpl; f_equal; lia.
      * rewrite bool_decide_eq_false_2 by done. done.
    + done.
Qed.

Lemma NoDup_keys_tally l d :
  NoDup (Dict.keys d) → NoDup (Dict.keys (foldl tally_step d l)).
Proof.
  revert d. induction l as [|x l IH]; intros d Hd; simpl; [done|].
  apply IH. unfold tally_step. destruct (p x); [|done].
  by apply NoDup_keys_update.
Qed.

Lemma tally_nil_iff l :
  foldl tally_step [] l = [] ↔ ∀ x, x ∈ l → p x = false.
Proof.
  split.
  - intros Hnil x Hx. destruct (p x) eqn:Hp; [|done].
    pose proof (get_tally l [] (kf x)) as Hg.
    rewrite Hnil in Hg. simpl in Hg.
    destruct (existsb _ l) eqn:He; [done|].
    assert (existsb (λ y, p y && bool_decide (kf y = kf x)) l = true) as He'.
    { apply existsb_exists. exists x. split; [by apply list_elem_of_In|].
      rewrite Hp. simpl. by apply bool_decide_eq_true_2. }
    congruence.
  - induction l as [|x l IH]; intros Hl; simpl; [done|].
    unfold tally_step at 2. rewrite (Hl x) by left.
    apply IH. intros; apply Hl; by right.
Qed.

(** The first key with the largest sum. *)
Lemma tally_max l d s :
  d = foldl tally_step [] l →
  fst <$> py_max snd d = Some s →
  (∃ x, x ∈ l ∧ p x = true ∧ kf x = s) ∧
  ∀ x, x ∈ l → p x = true → tally p w kf (kf x) l ≤ tally p w kf s l.
Proof.
  intros Hd Hmax.
  destruct (py_max snd d) as [[s' n]|] eqn:Hpm; simplify_eq/=.
  apply py_max_Some in Hpm as [Hin Hle].
  assert (NoDup (Dict.keys (foldl tally_step [] l))) as Hnd.
  { apply NoDup_keys_tally. constructor. }
  apply elem_of_get in Hin; [|done].
  rewrite get_tally in Hin. simpl in Hin.
  destruct (existsb _ l) eqn:He; [|done]. simplify_eq.
  split.
  - apply existsb_exists in He as (x & Hx & Hpx).
    apply andb_prop in Hpx as [Hp Hk]. apply bool_decide_eq_true in Hk.
    exists x. by rewrite <-list_elem_of_In in Hx.
  - intros x Hx Hp.
    assert (Dict.get (foldl tally_step [] l) (kf x)
            = Some (tally p w kf (kf x) l)) as Hg.
    { rewrite get_tally. simpl.
      replace (existsb _ l) with true; [done|]. symmetry.
      apply existsb_exists. exists x. split; [by apply list_elem_of_In|].
      rewrite Hp. simpl. by apply bool_decide_eq_true_2. }
    apply get_Some_elem_of, Hle in Hg. done.
Qed.
End tally_facts.

(** ** The matcher *)

Section exec_facts.
Context {A : Type}.
Implicit Types (k : str → option A) (r : regex) (s : str).

Lemma exec_Star r s k :
  exec (Star r) s k = star_loop (exec r) k (length s) s.
Proof. reflexivity. Qed.

Lemma star_loop_sound r k :
  (∀ s k' x, exec r s k' = Some x →
             ∃ s1 s2, s = s1 ++ s2 ∧ matches r s1 ∧ k' s2 = Some x) →
  ∀ fuel s x, star_loop (exec r) k fuel s = Some x →
              ∃ s1 s2, s = s1 ++ s2 ∧ matches (Star r) s1 ∧ k s2 = Some x.
Proof.
  intros Hr. induction fuel as [|fuel IH]; intros s x; simpl.
  - intros Hk. exists [], s. split_and!; [done|constructor|done].
  - destruct (exec r s _) as [y|] eqn:He.
    + intros [= ->]. apply Hr in He as (a & s' & -> & Ha & Hk').
      destruct (Nat.ltb_spec (length s') (length (a ++ s'))) as [Hlen|]; [|done].
      apply IH in Hk' as (b & s2 & -> & Hb & Hk).
      exists (a ++ b), s2. split_and!; [by rewrite (assoc_L (++))| |done].
      constructor; [|done..]. intros ->. simpl in Hlen. lia.
    + intros Hk. exists [], s. split_and!; [done|constructor|done].
Qed.

Lemma exec_sound r s k x :
  exec r s k = Some x →
  ∃ s1 s2, s = s1 ++ s2 ∧ matches r s1 ∧ k s2 = Some x.
Proof.
  revert s k x. induction r as [|p|r1 IH1 r2 IH2|r1 IH1 r2 IH2|r IH];
    intros s k x.
  - simpl. intros Hk. exists [], s. split_and!; [done|constructor|done].
  - simpl. destruct s as [|c s]; [done|].
    destruct (p c) eqn:Hp; [|done]. intros Hk.
    exists [c], s. split_and!; [done|by constructor|done].
  - simpl. intros He. apply IH1 in He as (a & s' & -> & Ha & He).
    apply IH2 in He as (b & s2 & -> & Hb & Hk).
    exists (a ++ b), s2. split_and!; [by rewrite (assoc_L (++))| |done].
    by constructor.
  - simpl. destruct (exec r1 s k) as [y|] eqn:He.
    + intros [= ->]. apply IH1 in He as (a & s2 & -> & Ha & Hk).
      exists a, s2. split_and!; [done|by apply m_alt_l|done].
    + intros He2. apply IH2 in He2 as (a & s2 & -> & Ha & Hk).
      exists a, s2. split_and!; [done|by apply m_alt_r|done].
  - rewrite exec_Star. by apply star_loop_sound.
Qed.

Lemma star_loop_complete r k :
  (∀ s1 s2 k', matches r s1 → is_Some (k' s2) →
               is_Some (exec r (s1 ++ s2) k')) →
  ∀ s1, matches (Star r) s1 →
  ∀ s2 fuel, (length (s1 ++ s2) ≤ fuel)%nat → is_Some (k s2) →
             is_Some (star_loop (exec r) k fuel (s1 ++ s2)).
Proof.
  intros Hr s1 Hs1. remember (Star r) as r' eqn:Hr'.
  induction Hs1 as [| | | | |r0|r0 a b Hne Ha _ Hb IH]; try done;
    simplify_eq; intros s2 fuel Hlen Hk.
  - destruct fuel as [|fuel]; simpl; [done|].
    by destruct (exec r s2 _).
  - destruct fuel as [|fuel].
    { destruct a; [done|]. simpl in Hlen. lia. }
    rewrite <-(assoc_L (++)) in Hlen |- *. cbn [star_loop].
    set (k' := λ s1, if (length s1 <? length (a ++ b ++ s2))%nat
                     then star_loop (exec r) k fuel s1 else None).
    destruct (Hr a (b ++ s2) k') as [y Hy]; [done| |by rewrite Hy].
    assert (length (b ++ s2) < length (a ++ b ++ s2))%nat as Hlt.
    { rewrite (length_app a). destruct a; [done|]. simpl. lia. }
    unfold k'. rewrite (proj2 (Nat.ltb_lt _ _) Hlt).
    apply IH; [done| |done]. lia.
Qed.

Lemma exec_complete r s1 s2 k :
  matches r s1 → is_Some (k s2) → is_Some (exec r (s1 ++ s2) k).
Proof.
  revert s1 s2 k. induction r as [|p|r1 IH1 r2 IH2|r1 IH1 r2 IH2|r IH];
    intros s1 s2 k Hm Hk.
  - by inversion Hm; simplify_eq.
  - inversion Hm as [|p' c Hp| | | | |]; simplify_eq. simpl. by rewrite Hp.
  - inversion Hm as [| |r1' r2' a b Ha Hb| | | |]; simplify_eq. simpl.
    rewrite <-(assoc_L (++)). apply IH1; [done|]. by apply IH2.
  - simpl. inversion Hm; simplify_eq.
    + edestruct (IH1 s1 s2 k) as [y Hy]; [done..|]. by rewrite Hy.
    + destruct (exec r1 (s1 ++ s2) k); [done|]. by apply IH2.
  - rewrite exec_Star. by apply star_loop_complete.
Qed.
End exec_facts.

Lemma rmatch_iff r s :
  found (rmatch r s) = true ↔ ∃ s1 s2, s = s1 ++ s2 ∧ matches r s1.
Proof.
  unfold rmatch. split.
  - destruct (exec r s Some) as [x|] eqn:He; [|done]. intros _.
    apply exec_sound in He as (s1 & s2 & -> & Hm & _). eauto.
  - intros (s1 & s2 & -> & Hm).
    by destruct (exec_complete r s1 s2 Some Hm) as [x ->].
Qed.

Lemma search_iff {A} r (k : str → option A) s :
  found (search r k s) = true ↔
  ∃ pre s1 s2, s = pre ++ s1 ++ s2 ∧ matches r s1 ∧ is_Some (k s2).
Proof.
  induction s as [|c s IH]; simpl.
  - destruct (exec r [] k) as [x|] eqn:He.
    + split; [intros _|done].
      apply exec_sound in He as (s1 & s2 & Heq & Hm & Hk).
      exists [], s1, s2. eauto.
    + split; [done|]. intros (pre & s1 & s2 & Heq & Hm & Hk).
      symmetry in Heq. apply app_eq_nil in Heq as [-> Heq].
      pose proof (exec_complete r s1 s2 k Hm Hk) as [y Hy].
      rewrite Heq in Hy. congruence.
  - destruct (exec r (c :: s) k) as [x|] eqn:He.
    + split; [intros _|done].
      apply exec_sound in He as (s1 & s2 & Heq & Hm & Hk).
      exists [], s1, s2. eauto.
    + rewrite IH. split.
      * intros (pre & s1 & s2 & -> & Hm & Hk). exists (c :: pre), s1, s2. eauto.
      * intros (pre & s1 & s2 & Heq & Hm & Hk).
        destruct pre as [|c' pre]; simpl in Heq.
        { pose proof (exec_complete r s1 s2 k Hm Hk) as [y Hy].
          rewrite <-Heq in Hy. congruence. }
        simplify_eq. eauto 10.
Qed.

(** The words of the constructions that the patterns use. *)
Lemma matches_Eps s : matches Eps s ↔ s = [].
Proof. split; [by inversion 1|intros ->; constructor]. Qed.

Lemma matches_Class p s : matches (Class p) s ↔ ∃ c, s = [c] ∧ p c = true.
Proof.
  split; [inversion 1; eauto|intros (c & -> & Hp); by constructor].
Qed.

Lemma matches_Chr c s : matches (Chr c) s ↔ s = [c].
Proof.
  unfold Chr, char_eqb. rewrite matches_Class. split.
  - intros (c' & -> & Hc). by apply N.eqb_eq in Hc as ->.
  - intros ->. exists c. split; [done|apply N.eqb_refl].
Qed.

Lemma matches_Seq r1 r2 s :
  matches (Seq r1 r2) s ↔ ∃ a b, s = a ++ b ∧ matches r1 a ∧ matches r2 b.
Proof.
  split; [inversion 1; eauto|intros (a & b & -> & ? & ?); by constructor].
Qed.

Lemma matches_Alt r1 r2 s :
  matches (Alt r1 r2) s ↔ matches r1 s ∨ matches r2 s.
Proof.
  split; [inversion 1; auto|intros [?|?]; [by apply m_alt_l|by apply m_alt_r]].
Qed.

Lemma matches_Opt r s : matches (Opt r) s ↔ matches r s ∨ s = [].
Proof. unfold Opt. by rewrite matches_Alt, matches_Eps. Qed.

Lemma matches_Star_Class p s :
  matches (Star (Class p)) s ↔ Forall (λ c, p c = true) s.
Proof.
  split.
  - intros Hm. remember (Star (Class p)) as r eqn:Hr.
    induction Hm as [| | | | | |r0 a b Hne Ha _ Hb IH]; simplify_eq; [done|].
    apply matches_Class in Ha as (c & -> & Hc). constructor; auto.
  - induction 1 as [|c s Hc Hs IH]; [constructor|].
    apply (m_star_more _ [c] s); [done|by constructor|done].
Qed.

Lemma matches_Plus_Class p s :
  matches (Plus (Class p)) s ↔ s ≠ [] ∧ Forall (λ c, p c = true) s.
Proof.
  unfold Plus. rewrite matches_Seq. split.
  - intros (a & b & -> & (c & -> & Hc)%matches_Class & Hb%matches_Star_Class).
    split; [done|by constructor].
  - intros [Hne Hs]. destruct Hs as [|c s Hc Hs]; [done|].
    exists [c], s. split_and!; [done|by constructor|by apply matches_Star_Class].
Qed.

Lemma matches_Word cls w s :
  matches (Word cls w) s ↔ Forall2 (λ p c, cls p c = true) w s.
Proof.
  revert s. induction w as [|p w IH]; intros s; simpl.
  - rewrite matches_Eps. split; [intros ->; constructor|by inversion 1].
  - rewrite matches_Seq. split.
    + intros (a & b & -> & (c & -> & Hc)%matches_Class & Hb%IH).
      by constructor.
    + inversion 1 as [|? c ? s' Hc Hs]; simplify_eq.
      exists [c], s'. split_and!; [done|by constructor|by apply IH].
Qed.


(** ** Body-style inference *)

Lemma style_word_counts_tally blocks :
  style_word_counts blocks
  = foldl (tally_step substantial num_words style) [] blocks.
Proof. reflexivity. Qed.

Lemma Counter_tally {K} `{EqDecision K} (l : list K) :
  Counter l = foldl (tally_step (λ _, true) (λ _, 1) id) [] l.
Proof. reflexivity. Qed.

Lemma find_body_style_substantial blocks :
  existsb substantial blocks = true →
  ∃ s, _find_body_style blocks = Some s
       ∧ (∃ b, b ∈ blocks ∧ substantial b = true ∧ style b = s)
       ∧ ∀ b, b ∈ blocks → substantial b = true →
              total_words (style b) blocks ≤ total_words s blocks.
Proof.
  intros Hex. unfold _find_body_style.
  destruct (style_word_counts blocks) as [|c counts] eqn:Hc.
  { rewrite style_word_counts_tally in Hc.
    pose proof (proj1 (tally_nil_iff substantial num_words style blocks) Hc) as Hall.
    apply existsb_false_iff in Hall. congruence. }
  destruct (py_max_is_Some snd (c :: counts)) as [m Hm]; [done|].
  exists m.1. rewrite Hm. split; [done|].
  eapply (tally_max substantial num_words style blocks (c :: counts)).
  - by rewrite <-Hc.
  - by rewrite Hm.
Qed.

Lemma find_body_style_fallback blocks :
  existsb substantial blocks = false → blocks ≠ [] →
  ∃ s, _find_body_style blocks = Some s
       ∧ (∃ b, b ∈ blocks ∧ style b = s)
       ∧ ∀ b, b ∈ blocks → block_count (style b) blocks ≤ block_count s blocks.
Proof.
  intros Hex Hne. unfold _find_body_style.
  assert (style_word_counts blocks = []) as ->.
  { rewrite style_word_counts_tally.
    by apply (tally_nil_iff substantial num_words style), existsb_false_iff. }
  destruct (Counter (style <$> blocks)) as [|c freq] eqn:Hc.
  { rewrite Counter_tally in Hc.
    pose proof (proj1 (tally_nil_iff _ _ _ _) Hc) as Hall.
    destruct blocks as [|b blocks]; [done|].
    specialize (Hall (style b)). simpl in Hall. discriminate Hall. left. }
  unfold most_common_1.
  destruct (py_max_is_Some snd (c :: freq)) as [m Hm]; [done|].
  exists m.1. rewrite Hm. split; [done|].
  destruct (tally_max (λ _, true) (λ _, 1) id (style <$> blocks) (c :: freq) m.1)
    as [(s & Hs & _ & Hsm) Hle].
  - by rewrite <-Hc.
  - by rewrite Hm.
  - split.
    + apply list_elem_of_fmap in Hs as (b & -> & Hb). by exists b.
    + intros b Hb. apply (Hle (style b)); [|done].
      apply list_elem_of_fmap. by exists b.
Qed.

Lemma find_body_style_None blocks :
  _find_body_style blocks = None ↔ blocks = [].
Proof.
  split; [|by intros ->].
  intros Hnone. destruct (existsb substantial blocks) eqn:Hex.
  - apply find_body_style_substantial in Hex as (s & Hs & _). congruence.
  - destruct (decide (blocks = [])) as [|Hne]; [done|].
    destruct (find_body_style_fallback blocks Hex Hne) as (s & Hs & _).
    congruence.
Qed.

Lemma get_outline_heuristic nd doc :
  native_outline (toc doc) = [] →
  get_outline nd doc
  = mkOutline (_extract_title doc)
      (heuristic_outline nd (_extract_title doc) (text_blocks doc)).
Proof.
  unfold get_outline. destruct (toc doc); [done|]. by intros ->.
Qed.

(** C5. Body-style inference returns the style with the highest total word
    count over the substantial blocks (more than 2 lines or more than 20
    words); when no block is substantial it returns the style of the most
    blocks; when there is no block it returns [None], and then
    [get_outline] returns an empty outline. *)
Theorem body_style_inference (unicode_decimal : char → bool) (doc : Document) :
  let blocks := text_blocks doc in
  (existsb substantial blocks = true →
   ∃ s, _find_body_style blocks = Some s
        ∧ (∃ b, b ∈ blocks ∧ substantial b = true ∧ style b = s)
        ∧ ∀ b, b ∈ blocks → substantial b = true →
               total_words (style b) blocks ≤ total_words s blocks)
  ∧ (existsb substantial blocks = false → blocks ≠ [] →
     ∃ s, _find_body_style blocks = Some s
          ∧ (∃ b, b ∈ blocks ∧ style b = s)
          ∧ ∀ b, b ∈ blocks →
                 block_count (style b) blocks ≤ block_count s blocks)
  ∧ (blocks = [] → _find_body_style blocks = None)
  ∧ (_find_body_style blocks = None → native_outline (toc doc) = [] →
     outline (get_outline unicode_decimal doc) = []).
Proof.
  intros blocks. split_and!.
  - apply find_body_style_substantial.
  - apply find_body_style_fallback.
  - by intros ->.
  - intros Hnone Hn. rewrite get_outline_heuristic by done. simpl.
    apply find_body_style_None in Hnone. fold blocks. by rewrite Hnone.
Qed.

(** ** The style-to-level mapping *)

Lemma size_groups_of_snoc styles st :
  size_groups_of (styles ++ [st])
  = Dict.update (λ g, g ++ [st]) [] st.1 (size_groups_of styles).
Proof. unfold size_groups_of. by rewrite foldl_snoc. Qed.

Lemma size_groups_of_spec styles :
  NoDup (Dict.keys (size_groups_of styles)) ∧
  (∀ z, z ∈ Dict.keys (size_groups_of styles) ↔ ∃ st, st ∈ styles ∧ st.1 = z) ∧
  (∀ z g, Dict.get (size_groups_of styles) z = Some g →
          ∀ st, st ∈ g ↔ st ∈ styles ∧ st.1 = z).
Proof.
  induction styles as [|x styles (IHnd & IHk & IHg)] using rev_ind.
  { split_and!; [constructor|..].
    - intros z. split; [intros Hz; inversion Hz|intros (? & Hz & _); inversion Hz].
    - done. }
  rewrite size_groups_of_snoc.
  assert (∀ z, is_Some (Dict.get (Dict.update (λ g, g ++ [x]) [] x.1
                                    (size_groups_of styles)) z)
               ↔ ∃ st, st ∈ styles ++ [x] ∧ st.1 = z) as Hkeys.
  { intros z. rewrite get_update. setoid_rewrite elem_of_app.
    setoid_rewrite list_elem_of_singleton.
    case_decide as Hz.
    - subst z. split; [intros _; exists x; auto|eauto].
    - rewrite <-elem_of_keys, IHk. naive_solver. }
  split_and!.
  - by apply NoDup_keys_update.
  - intros z. by rewrite elem_of_keys.
  - intros z g. rewrite get_update. setoid_rewrite elem_of_app.
    setoid_rewrite list_elem_of_singleton.
    case_decide as Hz; [|intros Hg st; rewrite (IHg z g Hg); naive_solver].
    subst z. intros [= <-] st. rewrite elem_of_app, list_elem_of_singleton.
    destruct (Dict.get (size_groups_of styles) x.1) as [g0|] eqn:Hg0; simpl.
    + rewrite (IHg _ _ Hg0). naive_solver.
    + apply get_None_keys in Hg0. rewrite IHk in Hg0.
      split; [intros [Hst| ->]; [inversion Hst|auto]|].
      intros [[Hst| ->] Heq]; [|auto]. destruct Hg0; eauto.
Qed.

Lemma filter_none {A} (P : A → Prop) `{∀ x, Decision (P x)} (l : list A) :
  (∀ x, x ∈ l → ¬ P x) → filter P l = [].
Proof.
  induction l as [|x l IH]; intros Hl; [done|].
  rewrite filter_cons, decide_False by (apply Hl; left).
  apply IH. intros; apply Hl; by right.
Qed.

(** In a list in strictly descending order the index of an element is the
    number of elements larger than it. *)
Lemma descending_index (l : list Z) i z :
  StronglySorted (λ x y, y < x) l → l !! i = Some z →
  length (filter (λ z', z < z') l) = i.
Proof.
  intros Hs. revert i. induction Hs as [|x l Hs IH Hx]; intros i Hi; [done|].
  rewrite Forall_forall in Hx. rewrite filter_cons.
  destruct i as [|i]; simpl in Hi.
  - simplify_eq. rewrite decide_False by lia.
    rewrite filter_none; [done|].
    intros y Hy. specialize (Hx y Hy). lia.
  - assert (z < x) by (apply Hx; eapply list_elem_of_lookup_2; done).
    rewrite decide_True by done. simpl. f_equal. by apply IH.
Qed.

Lemma sorted_sizes_descending (keys : list Z) :
  NoDup keys → StronglySorted (λ x y, y < x) (py_sorted Z.ltb id true keys).
Proof.
  intros Hnd.
  assert (NoDup (py_sorted Z.ltb id true keys)) as Hnd'.
  { by rewrite py_sorted_Permutation. }
  assert (StronglySorted (λ x y, (x <? y) = false)
            (py_sorted Z.ltb id true keys)) as Hs.
  { apply (py_sorted_descending Z.ltb id); intros; lia. }
  induction Hs as [|x l Hs IH Hx]; [constructor|].
  apply NoDup_cons in Hnd' as [Hxl Hndl].
  constructor; [by apply IH|].
  rewrite Forall_forall in Hx |- *. intros y Hy.
  specialize (Hx y Hy). assert (x ≠ y) by (by intros ->). lia.
Qed.

Section levels.
Context (styles : list Style).

Lemma assign_spec (sizes : list Z) :
  NoDup sizes → (∀ z, z ∈ sizes → z ∈ Dict.keys (size_groups_of styles)) →
  ∀ st lvl,
    Dict.get (assign_levels (size_groups_of styles) sizes) st = Some lvl ↔
    ∃ i, sizes !! i = Some st.1 ∧ level_map !! i = Some lvl ∧ st ∈ styles.
Proof.
  destruct (size_groups_of_spec styles) as (_ & Hkeys & Hgroups).
  induction sizes as [|x sizes IH] using rev_ind; intros Hnd Hsub st lvl.
  { split; [done|]. by intros (i & Hi & _). }
  apply NoDup_app in Hnd as (Hnd & Hx & _).
  assert (x ∉ sizes) as Hxs by (intros ?; eapply Hx; [done|left]).
  specialize (IH Hnd (λ z Hz, Hsub z ltac:(set_solver)) st).
  unfold assign_levels, enumerate in *. rewrite imap_app, foldl_app. simpl.
  rewrite Nat.add_0_r.
  assert (∀ i, (sizes ++ [x]) !! i = Some st.1 ↔
               sizes !! i = Some st.1 ∨ (i = length sizes ∧ x = st.1)) as Hlk.
  { intros i. rewrite lookup_snoc_Some. split.
    - intros [[_ Hi]|Hi]; auto.
    - intros [Hi|Hi]; [left|by right].
      split; [by eapply lookup_lt_Some|done]. }
  setoid_rewrite Hlk.
  destruct (level_map !! length sizes) as [lv|] eqn:Hlv.
  - rewrite get_foldl_set.
    destruct (Dict.get (size_groups_of styles) x) as [g|] eqn:Hg; simpl.
    2:{ apply get_None_keys in Hg. destruct Hg. apply Hsub. set_solver. }
    case_decide as Hin.
    + apply elem_of_py_sorted, (Hgroups _ _ Hg) in Hin as [Hst Hsz].
      split.
      * intros [= <-]. exists (length sizes). auto.
      * intros (i & [Hi|[-> _]] & Hl & _); [|congruence].
        destruct Hxs. rewrite <-Hsz. by eapply list_elem_of_lookup_2.
    + rewrite IH. split.
      * intros (i & ? & ? & ?). eauto 10.
      * intros (i & [Hi|[-> Heq]] & Hl & Hst); [eauto|].
        destruct Hin. apply elem_of_py_sorted, (Hgroups _ _ Hg). auto.
  - rewrite IH. split.
    + intros (i & ? & ? & ?). eauto 10.
    + intros (i & [Hi|[-> Heq]] & Hl & Hst); [eauto|congruence].
Qed.
End levels.

Lemma size_rank_index (sizes sorted : list Z) i z :
  sorted ≡ₚ remove_dups sizes →
  StronglySorted (λ x y, y < x) sorted →
  sorted !! i = Some z → size_rank sizes z = i.
Proof.
  intros Hp Hs Hi. unfold size_rank. rewrite <-Hp. by eapply descending_index.
Qed.

(** The level of a style is the entry of [level_map] at the rank of its
    size, for any order in which the set of styles is enumerated. *)
Lemma style_to_level_of_rank (styles : list Style) st :
  st ∈ styles →
  Dict.get (style_to_level_of styles) st
  = level_map !! size_rank (styles.*1) st.1.
Proof.
  intros Hst.
  destruct (size_groups_of_spec styles) as (Hnd & Hkeys & Hgroups).
  set (sorted := py_sorted Z.ltb id true (Dict.keys (size_groups_of styles))).
  assert (sorted ≡ₚ remove_dups (styles.*1)) as Hperm.
  { unfold sorted. rewrite py_sorted_Permutation.
    apply NoDup_Permutation; [done|apply NoDup_remove_dups|].
    intros z. rewrite Hkeys, elem_of_remove_dups, list_elem_of_fmap.
    naive_solver. }
  assert (StronglySorted (λ x y, y < x) sorted) as Hsorted
    by (by apply sorted_sizes_descending).
  assert (NoDup sorted) as Hnds by (unfold sorted; by rewrite py_sorted_Permutation).
  assert (∃ i, sorted !! i = Some st.1) as [i Hi].
  { apply list_elem_of_lookup. unfold sorted.
    rewrite elem_of_py_sorted, Hkeys. eauto. }
  rewrite (size_rank_index _ sorted i st.1) by done.
  pose proof (assign_spec styles sorted Hnds) as Hassign.
  assert (∀ z, z ∈ sorted → z ∈ Dict.keys (size_groups_of styles)) as Hsub.
  { intros z. unfold sorted. by rewrite elem_of_py_sorted. }
  specialize (Hassign Hsub st).
  change (style_to_level_of styles)
    with (assign_levels (size_groups_of styles) sorted).
  destruct (level_map !! i) as [lvl|] eqn:Hl.
  - apply Hassign. eauto.
  - apply eq_None_not_Some. intros [lvl Hg].
    apply Hassign in Hg as (j & Hj & Hlj & _).
    assert (i = j) as <- by (by eapply NoDup_lookup). congruence.
Qed.

Lemma level_map_lookup (r : nat) :
  level_map !! r = if (r <? 4)%nat then Some (Z.of_nat r + 1) else None.
Proof. by do 4 (destruct r as [|r]; [done|]). Qed.

Lemma size_rank_proper (sizes1 sizes2 : list Z) z :
  (∀ x, x ∈ sizes1 ↔ x ∈ sizes2) → size_rank sizes1 z = size_rank sizes2 z.
Proof.
  intros Heq. unfold size_rank.
  assert (remove_dups sizes1 ≡ₚ remove_dups sizes2) as ->; [|done].
  apply NoDup_Permutation; [apply NoDup_remove_dups..|].
  intros x. by rewrite !elem_of_remove_dups.
Qed.

Lemma size_rank_mono (sizes : list Z) z z' :
  z' ∈ sizes → z < z' → (size_rank sizes z' < size_rank sizes z)%nat.
Proof.
  intros Hin Hlt. unfold size_rank.
  assert (filter (λ x, z' < x) (remove_dups sizes)
          = filter (λ x, z' < x) (filter (λ x, z < x) (remove_dups sizes))) as ->.
  { rewrite list_filter_filter. apply list_filter_iff. intros x. lia. }
  apply (length_filter_lt _ _ z'); [|lia].
  apply list_elem_of_filter. split; [done|]. by apply elem_of_remove_dups.
Qed.

Lemma heading_styles_sizes heading_blocks z :
  z ∈ (heading_styles heading_blocks).*1 ↔ z ∈ candidate_sizes heading_blocks.
Proof.
  unfold heading_styles, candidate_sizes. rewrite !list_elem_of_fmap.
  setoid_rewrite elem_of_remove_dups. setoid_rewrite list_elem_of_fmap.
  naive_solver.
Qed.

Lemma style_to_level_of_block heading_blocks b :
  b ∈ heading_blocks →
  Dict.get (style_to_level_of (heading_styles heading_blocks)) (style b)
  = level_map !! size_rank (candidate_sizes heading_blocks) (style b).1.
Proof.
  intros Hb. rewrite style_to_level_of_rank.
  - f_equal. apply size_rank_proper, heading_styles_sizes.
  - apply elem_of_remove_dups, list_elem_of_fmap. eauto.
Qed.

(** C1. The level of a heading candidate is decided by the rank of its font
    size among the distinct candidate sizes in descending order: ranks 0 to
    3 give H1 to H4, bold and regular styles of one size have one level, a
    smaller size has a larger rank, and a candidate of rank 4 or more has no
    level and no entry is appended to the outline for it. *)
Theorem style_level_by_size_rank (unicode_decimal : char → bool) (title : str)
    (heading_blocks : list Block) (b : Block) :
  b ∈ heading_blocks →
  let style_to_level := style_to_level_of (heading_styles heading_blocks) in
  let rank := size_rank (candidate_sizes heading_blocks) in
  Dict.get style_to_level (style b)
    = (if (rank (style b).1 <? 4)%nat
       then Some (Z.of_nat (rank (style b).1) + 1) else None)
  ∧ (∀ b', b' ∈ heading_blocks → (style b').1 = (style b).1 →
           Dict.get style_to_level (style b') = Dict.get style_to_level (style b))
  ∧ (∀ b', b' ∈ heading_blocks → (style b').1 < (style b).1 →
           (rank (style b).1 < rank (style b').1)%nat)
  ∧ ((4 ≤ rank (style b).1)%nat →
     heading_of unicode_decimal style_to_level title b = None).
Proof.
  intros Hb stl rank. subst stl rank. split_and!.
  - by rewrite style_to_level_of_block, level_map_lookup.
  - intros b' Hb' Heq. rewrite !style_to_level_of_block by done. by rewrite Heq.
  - intros b' Hb' Hlt. apply size_rank_mono; [|done].
    apply list_elem_of_fmap. eauto.
  - intros Hrank. unfold heading_of.
    rewrite style_to_level_of_block, level_map_lookup by done.
    by rewrite (proj2 (Nat.ltb_ge _ _) Hrank).
Qed.

(** ** Candidate filtering *)

Lemma lstrip_spec s :
  ∃ sp, s = sp ++ lstrip s
        ∧ ∀ c, head (lstrip s) = Some c → is_space c = false.
Proof.
  induction s as [|c s (sp & Hs & Hh)]; simpl.
  - by exists [].
  - destruct (is_space c) eqn:Hc.
    + exists (c :: sp). split; [by rewrite Hs at 1|done].
    + exists []. split; [done|]. by intros ? [= <-].
Qed.

Lemma rstrip_prefix s : ∃ sp, s = rstrip s ++ sp.
Proof.
  unfold rstrip. destruct (lstrip_spec (reverse s)) as (sp & Hs & _).
  exists (reverse sp).
  by rewrite <-reverse_app, <-Hs, reverse_involutive.
Qed.

Lemma strip_head s c : head (strip s) = Some c → is_space c = false.
Proof.
  unfold strip. destruct (lstrip_spec s) as (_ & _ & Hh).
  destruct (rstrip_prefix (lstrip s)) as (sp & Hs).
  intros Hc. apply Hh. rewrite Hs.
  by destruct (rstrip (lstrip s)).
Qed.

Lemma is_candidate_iff st body_style :
  is_candidate st body_style = true ↔ more_prominent st body_style.
Proof.
  unfold is_candidate, more_prominent.
  rewrite orb_true_iff, !andb_true_iff, negb_true_iff, Z.ltb_lt, Z.eqb_eq.
  tauto.
Qed.








(** ** The numeric-prefix override *)

Lemma list_item_match_sound nd txt g :
  list_item_match nd txt = Some g →
  ∃ sp wsp rest,
    txt = sp ++ g ++ wsp ++ rest
    ∧ Forall (λ c, is_space c = true) sp
    ∧ matches (numbering nd) g
    ∧ wsp ≠ [] ∧ Forall (λ c, is_space c = true) wsp.
Proof.
  unfold list_item_match. intros He.
  apply exec_sound in He as (sp & s1 & -> & Hsp%matches_Star_Class & He).
  apply exec_sound in He as (g' & s2 & -> & Hg & He).
  apply exec_sound in He as (wsp & rest & -> & [Hne Hw]%matches_Plus_Class & He).
  simplify_eq. exists sp, wsp, rest.
  rewrite length_app, Nat.add_sub, take_app_length. done.
Qed.

Lemma list_item_match_complete nd sp g wsp rest :
  Forall (λ c, is_space c = true) sp →
  matches (numbering nd) g →
  wsp ≠ [] → Forall (λ c, is_space c = true) wsp →
  is_Some (list_item_match nd (sp ++ g ++ wsp ++ rest)).
Proof.
  intros Hsp Hg Hne Hw. unfold list_item_match.
  apply exec_complete; [by apply matches_Star_Class|].
  apply exec_complete; [done|].
  apply exec_complete; [by apply matches_Plus_Class|done].
Qed.

(** The words of [numbering]: runs of digits joined by periods. *)
Lemma matches_dot_groups nd parts :
  Forall (digits nd) parts →
  matches (Star (Seq (Chr 46%N) (Plus (Class (is_decimal nd)))))
    (concat ((λ d, 46%N :: d) <$> parts)).
Proof.
  induction 1 as [|d parts [Hne Hd] _ IH]; simpl; [constructor|].
  apply (m_star_more _ (46%N :: d)); [done| |done].
  apply (m_seq _ _ [_]); [by apply matches_Chr|].
  by apply matches_Plus_Class.
Qed.

Lemma join_dot_cons d parts :
  join dot (d :: parts) = d ++ concat ((λ d', 46%N :: d') <$> parts).
Proof.
  revert d. induction parts as [|d' parts IH]; intros d.
  - simpl. by rewrite app_nil_r.
  - change (join dot (d :: d' :: parts)) with (d ++ dot ++ join dot (d' :: parts)).
    by rewrite IH.
Qed.

Lemma matches_numbering nd parts :
  parts ≠ [] → Forall (digits nd) parts →
  matches (numbering nd) (join dot parts).
Proof.
  intros Hne Hparts. destruct Hparts as [|d parts [Hd1 Hd2] Hparts]; [done|].
  rewrite join_dot_cons. constructor.
  - by apply matches_Plus_Class.
  - by apply matches_dot_groups.
Qed.

Lemma numbering_chars nd g :
  matches (numbering nd) g →
  Forall (λ c, is_decimal nd c = true ∨ c = 46%N) g.
Proof.
  unfold numbering. intros (a & b & -> & [_ Ha]%matches_Plus_Class & Hb)%matches_Seq.
  apply Forall_app. split; [eapply Forall_impl; eauto|].
  remember (Star _) as r eqn:Hr.
  induction Hb as [| | | | | |r0 x y Hne Hx _ Hy IH]; simplify_eq; [done|].
  apply Forall_app. split; [|by apply IH].
  apply matches_Seq in Hx as (? & d & -> & ->%matches_Chr & [_ Hd]%matches_Plus_Class).
  constructor; [by right|]. eapply Forall_impl; eauto.
Qed.

(** Two texts that agree have the same prefix before the first
    whitespace. *)
Lemma prefix_before_space (a b : str) x y r r' :
  Forall (λ c, is_space c = false) a → Forall (λ c, is_space c = false) b →
  is_space x = true → is_space y = true →
  a ++ x :: r = b ++ y :: r' → a = b.
Proof.
  intros Ha. revert b. induction Ha as [|c a Hc Ha IH]; intros b Hb Hx Hy Heq.
  - destruct Hb as [|c b Hc Hb]; [done|]. simplify_eq/=. congruence.
  - destruct Hb as [|c' b Hc' Hb]; simplify_eq/=; [congruence|].
    f_equal. eauto.
Qed.

Section decimal_not_space.
Context (nd : char → bool).
Hypothesis nd_not_space : ∀ c, nd c = true → is_space c = false.

Lemma is_decimal_not_space c : is_decimal nd c = true → is_space c = false.
Proof.
  unfold is_decimal. destruct (N.ltb_spec c 128) as [Hc|Hc]; [|by auto].
  unfold is_ascii_digit, is_space, in_range.
  intros [H1 H2]%andb_true_iff. apply N.leb_le in H1, H2.
  repeat (apply orb_false_iff; split);
    try (apply andb_false_iff; rewrite !N.leb_gt; lia);
    apply N.eqb_neq; lia.
Qed.

Lemma numbering_no_space g :
  matches (numbering nd) g → Forall (λ c, is_space c = false) g.
Proof.
  intros Hg%numbering_chars. eapply Forall_impl; [done|].
  intros c [Hc| ->]; [by apply is_decimal_not_space|done].
Qed.

(** A text that starts with numbers joined by periods and then whitespace
    is matched, and the group is that prefix. *)
Lemma list_item_match_numbering parts w rest :
  parts ≠ [] → Forall (digits nd) parts → is_space w = true →
  list_item_match nd (join dot parts ++ w :: rest) = Some (join dot parts).
Proof.
  intros Hne Hparts Hw.
  pose proof (matches_numbering nd parts Hne Hparts) as Hg.
  destruct (list_item_match_complete nd [] (join dot parts) [w] rest)
    as [g' Hg']; [done|done|done|by repeat constructor|].
  simpl in Hg'. rewrite Hg'. f_equal.
  apply list_item_match_sound in Hg'
    as (sp & wsp & rest' & Heq & Hsp & Hm & Hwne & Hwsp).
  pose proof (numbering_no_space _ Hg) as Hns.
  assert (sp = []) as ->.
  { destruct sp as [|c sp]; [done|]. apply Forall_cons in Hsp as [Hc _].
    destruct (join dot parts) as [|c0 j] eqn:Hj.
    - apply matches_Seq in Hg as (a & b & Hab & [Ha _]%matches_Plus_Class & _).
      symmetry in Hab. by apply app_eq_nil in Hab as [-> _].
    - apply Forall_cons in Hns as [Hc0 _]. simplify_eq/=. congruence. }
  destruct Hwsp as [|w' wsp Hw' _]; [done|]. simpl in Heq.
  eapply prefix_before_space; [by apply numbering_no_space| | | |done]; done.
Qed.
End decimal_not_space.

Lemma count_char_app c a b :
  count_char c (a ++ b) = count_char c a + count_char c b.
Proof. unfold count_char. rewrite List.filter_app, length_app. lia. Qed.

Lemma count_dot_digits nd d :
  Forall (λ c, is_decimal nd c = true) d → count_char 46%N d = 0.
Proof.
  induction 1 as [|c d Hc _ IH]; [done|].
  change (c :: d) with ([c] ++ d). rewrite count_char_app, IH.
  unfold count_char. cbn [List.filter app].
  destruct (char_eqb 46%N c) eqn:Heq; [|done].
  apply N.eqb_eq in Heq as <-. by vm_compute in Hc.
Qed.

(** The number of periods of [n] numbers joined by periods is [n - 1]. *)
Lemma count_dot_join nd parts :
  parts ≠ [] → Forall (digits nd) parts →
  count_char 46%N (join dot parts) + 1 = Z.of_nat (length parts).
Proof.
  intros Hne Hparts. induction Hparts as [|d parts [_ Hd] Hparts IH]; [done|].
  destruct parts as [|d' parts].
  - simpl. rewrite (count_dot_digits nd) by done. lia.
  - change (join dot (d :: d' :: parts)) with (d ++ dot ++ join dot (d' :: parts)).
    rewrite !count_char_app, (count_dot_digits nd d) by done.
    specialize (IH ltac:(done)). change (count_char 46%N dot) with 1.
    rewrite length_cons. lia.
Qed.

Lemma heading_of_override nd style_to_level title block lvl group1 :
  Dict.get style_to_level (style block) = Some lvl →
  list_item_match nd (normalize (text block)) = Some group1 →
  heading_of nd style_to_level title block =
    if (count_char 46%N group1 + 1 =? 1) && (page_num block =? 1)
       && bool_decide (normalize (text block) = title)
    then None
    else Some (mkHeading (count_char 46%N group1 + 1) (normalize (text block))
                 (page_num block) (Some (bbox block))).
Proof. intros Hget Hmatch. unfold heading_of. by rewrite Hget, Hmatch. Qed.

(** C2, as the code has it. For a heading candidate whose style has a
    level in [style_to_level] and whose normalized text starts with
    numbers joined by single periods and then whitespace, the level is the
    number of periods of that prefix plus 1, which is the number of
    numbers, whatever the level of the style; the entry is appended unless
    that level is 1, the block is on page 1 and the text is the title. A
    candidate with such a style and the text [3.2.1 Setup] gives an entry
    of level 3. *)
Theorem numeric_prefix_override (unicode_decimal : char → bool)
    (style_to_level : Dict.dict Style Z) (title : str) (block : Block)
    (lvl : Z) :
  Dict.get style_to_level (style block) = Some lvl →
  (∀ parts w rest,
     (∀ c, unicode_decimal c = true → is_space c = false) →
     parts ≠ [] → Forall (digits unicode_decimal) parts → is_space w = true →
     normalize (text block) = join dot parts ++ w :: rest →
     let n := count_char 46%N (join dot parts) + 1 in
     n = Z.of_nat (length parts) ∧
     heading_of unicode_decimal style_to_level title block =
       if (n =? 1) && (page_num block =? 1)
          && bool_decide (normalize (text block) = title)
       then None
       else Some (mkHeading n (normalize (text block)) (page_num block)
                    (Some (bbox block))))
  ∧ (normalize (text block) = lit "3.2.1 Setup" →
     heading_of unicode_decimal style_to_level title block =
       Some (mkHeading 3 (lit "3.2.1 Setup") (page_num block)
               (Some (bbox block)))).
Proof.
  intros Hget. split.
  - intros parts w rest Hnd Hne Hparts Hw Htxt n. split.
    + by apply (count_dot_join unicode_decimal).
    + apply (heading_of_override _ _ _ _ lvl); [done|].
      rewrite Htxt. by apply list_item_match_numbering.
  - intros Htxt.
    rewrite (heading_of_override _ _ _ _ lvl (lit "3.2.1")); [|done|].
    + by rewrite Htxt.
    + rewrite Htxt. by vm_compute.
Qed.

(** C2 as it is worded fails: a candidate of the fifth size whose text is
    [3.2.1 Setup] has no level, and the outline has no entry for it. *)
Lemma numbered_heading_without_level :
  let heading_blocks :=
    List.filter (is_heading_block ascii_only (12, false)) five_size_blocks in
  _find_body_style five_size_blocks = Some (12, false)
  ∧ setup_block ∈ heading_blocks
  ∧ normalize (text setup_block) = lit "3.2.1 Setup"
  ∧ heading_of ascii_only (style_to_level_of (heading_styles heading_blocks))
      (_extract_title five_size_document) setup_block = None
  ∧ ¬ ∃ h, h ∈ outline (get_outline ascii_only five_size_document)
           ∧ h_text h = lit "3.2.1 Setup".
Proof.
  split_and!; [done| |done|done|].
  - vm_compute. do 4 right. left.
  - intros (h & Hh & Htxt). vm_compute in Hh.
    repeat (apply elem_of_cons in Hh as [->|Hh]; [by vm_compute in Htxt|]).
    inversion Hh.
Qed.

(** ** The range of the levels *)

(** C3 fails on the heuristic path: a prefix of five numbers gives the
    level 5. *)
Lemma override_level_above_four :
  (λ h, (level h, h_text h)) <$> outline (get_outline ascii_only deep_document)
  = [(5, lit "1.2.3.4.5 Details")].
Proof. by vm_compute. Qed.

(** ** The title *)

Lemma spells_ci w e : spells w e → Forall2 (λ p c, ci p c = true) w e.
Proof.
  intros He. eapply Forall2_impl; [done|].
  intros p c [-> | ->]; unfold ci, char_eqb.
  - by rewrite N.eqb_refl.
  - rewrite (N.eqb_refl (p - 32)). by rewrite orb_true_r.
Qed.

Lemma matches_word_opt w x e :
  Forall2 (λ p c, ci p c = true) w e
  ∨ Forall2 (λ p c, ci p c = true) (w ++ [x]) e →
  matches (Seq (Word ci w) (Opt (Class (ci x)))) e.
Proof.
  intros [He|He].
  - rewrite <-(app_nil_r e). constructor; [by apply matches_Word|].
    apply matches_Opt. by right.
  - apply Forall2_app_inv_l in He as (e1 & e2 & He1 & He2 & ->).
    constructor; [by apply matches_Word|].
    apply matches_Opt. left. apply matches_Class.
    inversion He2 as [|? c ? ? Hc Hnil]; simplify_eq. inversion Hnil. eauto.
Qed.

Lemma extension_matches w e :
  w ∈ extensions → spells w e → matches extension_pattern (dot ++ e).
Proof.
  intros Hw He%spells_ci. unfold extension_pattern.
  constructor; [by apply matches_Chr|].
  unfold extensions in Hw. simpl in Hw.
  repeat (apply elem_of_cons in Hw as [->|Hw]); [..|inversion Hw].
  - apply m_alt_l. by apply matches_Word.
  - apply m_alt_r, m_alt_l. apply matches_word_opt. by left.
  - apply m_alt_r, m_alt_l. apply matches_word_opt. by right.
  - do 2 apply m_alt_r. apply m_alt_l. apply matches_word_opt. by left.
  - do 2 apply m_alt_r. apply m_alt_l. apply matches_word_opt. by right.
  - do 3 apply m_alt_r. apply m_alt_l. apply matches_word_opt. by left.
  - do 3 apply m_alt_r. apply m_alt_l. apply matches_word_opt. by right.
  - do 4 apply m_alt_r. by apply matches_Word.
Qed.

Lemma has_extension_suffix_found t :
  has_extension_suffix t → has_extension t = true.
Proof.
  intros (pre & w & e & Hw & He & ->). unfold has_extension.
  apply search_iff. exists pre, (dot ++ e), [].
  split_and!; [by rewrite app_nil_r|by eapply extension_matches|by eexists].
Qed.

Lemma metadata_title_ok_no_extension t :
  metadata_title_ok t = true → ¬ has_extension_suffix t.
Proof.
  unfold metadata_title_ok. intros Hok Hsuf%has_extension_suffix_found.
  rewrite Hsuf in Hok. by rewrite andb_false_r in Hok.
Qed.

(** C7, as the code has it. When the metadata title, without the
    whitespace around it, is not empty and passes the test of line 150, it
    is the title, and it does not end in a period and one of [pdf], [doc],
    [docx], [ppt], [pptx], [xls], [xlsx], [cdr] in capitals or not.
    Otherwise the title is the largest text of the top of the first page,
    as it is. *)
Theorem metadata_title_has_no_extension (doc : Document) :
  let t := strip (metadata_title doc) in
  (t ≠ [] ∧ metadata_title_ok t = true
   ∧ _extract_title doc = t ∧ ¬ has_extension_suffix t)
  ∨ ((t = [] ∨ metadata_title_ok t = false)
     ∧ _extract_title doc = title_from_page doc).
Proof.
  intros t. unfold _extract_title. fold t.
  destruct (decide (t = [])) as [Ht|Ht].
  - right. rewrite bool_decide_eq_true_2 by done. auto.
  - rewrite bool_decide_eq_false_2 by done. simpl.
    destruct (metadata_title_ok t) eqn:Hok; [left|right; auto].
    split_and!; [done..|]. by apply metadata_title_ok_no_extension.
Qed.

(** C7 as it is worded fails on the path of the first page: a file name
    that is the largest text there is the title. *)
Lemma page_title_keeps_extension :
  _extract_title file_name_document = lit "report.pdf"
  ∧ has_extension_suffix (_extract_title file_name_document).
Proof.
  split; [done|].
  exists (lit "report"), (lit "pdf"), (lit "pdf"). split_and!; [|..|done].
  - unfold extensions. simpl. left.
  - unfold spells. repeat constructor.
Qed.

(** ** The native outline *)

Lemma has_alpha_iff s :
  has_alpha s = true ↔ Exists (λ c, is_ascii_alpha c = true) s.
Proof.
  unfold has_alpha. rewrite search_iff, Exists_exists. split.
  - intros (pre & s1 & s2 & -> & (c & -> & Hc)%matches_Class & _).
    exists c. split; [|done]. set_solver.
  - intros (c & (l1 & l2 & ->)%list_elem_of_split & Hc).
    exists l1, [c], l2. split_and!; [done|by constructor|by eexists].
Qed.

Lemma native_outline_filter toc :
  native_outline toc = toc_entry <$> filter kept_toc_entry toc.
Proof.
  unfold native_outline. induction toc as [|[[lvl txt] page] toc IH]; [done|].
  rewrite filter_cons. cbn [omap list_omap].
  destruct (Z.leb_spec 1 lvl), (Z.leb_spec lvl 4); cbn [andb];
    try (rewrite decide_False by (intros [? _]; simpl in *; lia); exact IH).
  cbn [List.filter h_text].
  destruct (has_alpha (strip txt)) eqn:Ha.
  - apply has_alpha_iff in Ha.
    rewrite decide_True by (split; [simpl; lia|done]).
    cbn [fmap list_fmap]. f_equal. exact IH.
  - rewrite decide_False; [exact IH|].
    intros [_ Hex%has_alpha_iff]. simpl in Hex. congruence.
Qed.

Lemma native_outline_levels toc h :
  h ∈ native_outline toc → 1 ≤ level h ≤ 4 ∧ h_bbox h = None.
Proof.
  rewrite native_outline_filter, list_elem_of_fmap.
  intros (e & -> & [[? _] _]%list_elem_of_filter). done.
Qed.

Lemma get_outline_native nd doc :
  native_outline (toc doc) ≠ [] →
  get_outline nd doc = mkOutline (_extract_title doc) (native_outline (toc doc)).
Proof.
  unfold get_outline. destruct (toc doc) as [|e toc]; [done|].
  by destruct (native_outline (e :: toc)).
Qed.



(** ** Sections *)

Lemma section_of_bounds doc heading box next sec :
  section_of doc heading box next = Some sec →
  section_bounds doc heading box next = Some (bounds sec)
  ∧ section_title sec = h_text heading
  ∧ page_number sec = h_page_num heading.
Proof.
  unfold section_of. intros Hsec.
  destruct (section_bounds doc heading box next) as [b|]; [|done].
  simpl in Hsec. destruct (mapM _ _); simplify_eq/=. done.
Qed.

Lemma section_bounds_start doc heading box next b :
  section_bounds doc heading box next = Some b →
  start_page b = h_page_num heading - 1 ∧ start_y b = y1 box.
Proof.
  unfold section_bounds.
  destruct (next ≫= _) as [[n nb]|]; [by intros [= <-]|].
  destruct (get_page doc _); intros; by simplify_eq/=.
Qed.

Lemma section_bounds_next doc heading box next_heading next_box b :
  h_bbox next_heading = Some next_box →
  section_bounds doc heading box (Some next_heading) = Some b →
  end_page b = h_page_num next_heading - 1 ∧ end_y b = y0 next_box.
Proof.
  unfold section_bounds. simpl. intros ->. simpl. by intros [= <-].
Qed.

Lemma get_page_last doc page :
  get_page doc (Z.of_nat (length (pages doc)) - 1) = Some page →
  last (pages doc) = Some page.
Proof.
  unfold get_page. rewrite last_lookup.
  destruct (Z.ltb_spec (Z.of_nat (length (pages doc)) - 1) 0).
  { by rewrite (proj2 (Z.eqb_eq _ 0)) by lia. }
  replace (Z.to_nat (Z.of_nat (length (pages doc)) - 1))
    with (pred (length (pages doc))) by lia.
  done.
Qed.

Lemma section_bounds_last doc heading box next b :
  next ≫= (λ n, pair n <$> h_bbox n) = None →
  section_bounds doc heading box next = Some b →
  ∃ page, last (pages doc) = Some page
          ∧ end_page b = Z.of_nat (length (pages doc)) - 1
          ∧ end_y b = height page.
Proof.
  unfold section_bounds. intros ->.
  destruct (get_page doc _) as [page|] eqn:Hp; [|done].
  intros [= <-]. exists page. split; [by apply get_page_last|done].
Qed.

Lemma get_sections_cons_boxed doc heading rest box secs :
  h_bbox heading = Some box →
  get_sections doc (heading :: rest) = Some secs →
  ∃ sec secs', secs = sec :: secs'
               ∧ section_of doc heading box (head rest) = Some sec
               ∧ get_sections doc rest = Some secs'.
Proof.
  simpl. intros ->.
  destruct (section_of doc heading box (head rest)) as [sec|]; [|done].
  simpl. destruct (get_sections doc rest) as [secs'|]; [|done].
  intros [= <-]. eauto.
Qed.

(** The sections are those of the entries with a box, in their order. *)
Lemma get_sections_titles doc outline secs :
  get_sections doc outline = Some secs →
  (λ s, (section_title s, page_number s)) <$> secs
  = (λ h, (h_text h, h_page_num h)) <$> filter (λ h, is_Some (h_bbox h)) outline.
Proof.
  revert secs. induction outline as [|h rest IH]; intros secs.
  - by intros [= <-].
  - rewrite filter_cons.
    destruct (decide (is_Some (h_bbox h))) as [[box Hb]|Hn].
    + intros (sec & secs' & -> & Hsec & Hrest)%(get_sections_cons_boxed _ _ _ box);
        [|done].
      apply section_of_bounds in Hsec as (_ & Ht & Hp).
      simpl. rewrite Ht, Hp. f_equal. eauto.
    + assert (h_bbox h = None) as Hb.
      { destruct (h_bbox h); [destruct Hn; eauto|done]. }
      simpl. rewrite Hb. eauto.
Qed.

Lemma get_sections_boxless doc outline :
  (∀ h, h ∈ outline → h_bbox h = None) → get_sections doc outline = Some [].
Proof.
  induction outline as [|h rest IH]; intros Hall; [done|].
  simpl. rewrite (Hall h) by left. apply IH. intros; apply Hall; by right.
Qed.

(** C9, as the code has it. An entry of the outline without a box is
    passed over: the sections are those of the entries with a box, in their
    order, and when the outline is the native one there is no section at
    all. *)
Theorem boxless_entries_have_no_section (unicode_decimal : char → bool)
    (doc : Document) (entries : list HeadingEntry) :
  (∀ secs, get_sections doc entries = Some secs →
           (λ s, (section_title s, page_number s)) <$> secs
           = (λ h, (h_text h, h_page_num h))
               <$> filter (λ h, is_Some (h_bbox h)) entries)
  ∧ ((∀ h, h ∈ entries → h_bbox h = None) →
     get_sections doc entries = Some [])
  ∧ (native_outline (toc doc) ≠ [] →
     document_sections unicode_decimal doc = Some []).
Proof.
  split_and!.
  - apply get_sections_titles.
  - apply get_sections_boxless.
  - intros Hn. unfold document_sections. rewrite get_outline_native by done.
    apply get_sections_boxless. intros h Hh. simpl in Hh.
    by apply native_outline_levels in Hh as [_ ?].
Qed.

(** C9 as it is worded fails: the entry of a native outline has no box and
    no section is made for it. *)
Lemma native_outline_gives_no_section :
  outline (get_outline ascii_only native_document)
  = [mkHeading 1 (lit "Introduction") 1 None]
  ∧ document_sections ascii_only native_document = Some [].
Proof. split; by vm_compute. Qed.

Lemma filter_all {A} (P : A → Prop) `{∀ x, Decision (P x)} (l : list A) :
  (∀ x, x ∈ l → P x) → filter P l = l.
Proof.
  induction l as [|x l IH]; intros Hl; [done|].
  rewrite filter_cons, decide_True by (apply Hl; left).
  f_equal. apply IH. intros; apply Hl; by right.
Qed.






(** ** Ranking *)

Lemma sort_asc_sorted {A K} (lt : K → K → bool) (key : A → K) l :
  StronglySorted (not_after lt key) l → sort_asc lt key l = l.
Proof.
  induction 1 as [|x l Hl IH Hx]; simpl; [done|].
  rewrite IH. destruct l as [|y l]; [done|]. simpl.
  apply Forall_cons in Hx as [Hy _]. unfold not_after in Hy. by rewrite Hy.
Qed.

Lemma py_sorted_descending_id {A K} (lt : K → K → bool) (key : A → K) l :
  StronglySorted (λ x y, lt (key x) (key y) = false) l →
  py_sorted lt key true l = l.
Proof.
  intros Hl. unfold py_sorted.
  rewrite sort_asc_sorted; [apply reverse_involutive|].
  by apply (StronglySorted_reverse (λ x y, lt (key x) (key y) = false)).
Qed.

Lemma zip_with_fmap_same {A B C} (f : A → B → C) (g : A → B) (l : list A) :
  zip_with f l (g <$> l) = (λ x, f x (g x)) <$> l.
Proof. induction l as [|x l IH]; [done|]. cbn. f_equal. exact IH. Qed.

Section ranker_facts.
Context {vec score : Type}.
Context (encode : str → vec) (cosine_similarity : vec → vec → score).
Context (score_lt : score → score → bool).
Context (persona job_to_be_done : str).

Local Abbreviation rank :=
  (rank_sections encode cosine_similarity score_lt persona job_to_be_done).
Local Abbreviation with_score :=
  (scored encode cosine_similarity persona job_to_be_done).

Lemma rank_sections_sorted all_sections :
  rank all_sections
  = py_sorted score_lt relevance_score true (with_score <$> all_sections).
Proof.
  unfold rank_sections. destruct all_sections as [|s l]; [done|].
  f_equal. by rewrite <-!list_fmap_compose, zip_with_fmap_same.
Qed.

Lemma with_score_section (l : list (Ranked score)) :
  (∀ r, r ∈ l → ∃ s, r = with_score s) → with_score <$> (section <$> l) = l.
Proof.
  induction l as [|r l IH]; intros Hl; [done|].
  simpl. destruct (Hl r) as [s ->]; [left|].
  f_equal. apply IH. intros; apply Hl; by right.
Qed.

Hypothesis lt_asym : ∀ a b, score_lt a b = true → score_lt b a = false.
Hypothesis lt_neg_trans :
  ∀ a b c, score_lt a b = false → score_lt b c = false → score_lt a c = false.

Lemma rank_sections_stable all_sections x :
  List.filter (same_score score_lt x) (rank all_sections)
  = List.filter (same_score score_lt x) (with_score <$> all_sections).
Proof.
  rewrite rank_sections_sorted. apply filter_py_sorted.
  unfold same_score. intros y z [Hxy Hyx]%andb_true_iff [Hxz Hzx]%andb_true_iff.
  apply negb_true_iff in Hxy, Hyx, Hxz, Hzx. eauto.
Qed.

Lemma rank_sections_idempotent all_sections :
  rank (section <$> rank all_sections) = rank all_sections.
Proof.
  rewrite (rank_sections_sorted (section <$> _)), with_score_section.
  - apply py_sorted_descending_id. rewrite rank_sections_sorted.
    by apply py_sorted_descending.
  - intros r. rewrite rank_sections_sorted, elem_of_py_sorted, list_elem_of_fmap.
    intros (s & -> & _). eauto.
Qed.
End ranker_facts.

(** C10. For scores on which [<] is an order of numbers, [rank_sections]
    returns the sections, each with its score, in descending order of
    score; sections of equal score keep the order of the input; and
    ranking the ranked sections again gives the same list. The result is a
    function of the sections and of the embeddings. *)
Theorem ranking_descending_stable {vec score : Type} (encode : str → vec)
    (cosine_similarity : vec → vec → score) (score_lt : score → score → bool)
    (persona job_to_be_done : str) (all_sections : list Section) :
  (∀ a b, score_lt a b = true → score_lt b a = false) →
  (∀ a b c, score_lt a b = false → score_lt b c = false →
            score_lt a c = false) →
  let rank :=
    rank_sections encode cosine_similarity score_lt persona job_to_be_done in
  let with_score := scored encode cosine_similarity persona job_to_be_done in
  rank all_sections ≡ₚ with_score <$> all_sections
  ∧ StronglySorted
      (λ x y, score_lt (relevance_score x) (relevance_score y) = false)
      (rank all_sections)
  ∧ (∀ x, List.filter (same_score score_lt x) (rank all_sections)
          = List.filter (same_score score_lt x) (with_score <$> all_sections))
  ∧ rank (section <$> rank all_sections) = rank all_sections.
Proof.
  intros Hasym Htrans rank with_score. subst rank with_score. split_and!.
  - rewrite rank_sections_sorted. apply py_sorted_Permutation.
  - rewrite rank_sections_sorted. by apply py_sorted_descending.
  - intros x. by apply rank_sections_stable.
  - by apply rank_sections_idempotent.
Qed.

(** ** The outline of the heuristic path and its sections *)

Lemma heading_of_Some nd style_to_level title b h :
  heading_of nd style_to_level title b = Some h →
  h_text h = normalize (text b) ∧ h_page_num h = page_num b
  ∧ h_bbox h = Some (bbox b).
Proof.
  unfold heading_of. destruct (Dict.get _ _); [|done].
  destruct (_ && _); [done|]. by intros [= <-].
Qed.

(** Every entry of the heuristic path is made by [heading_of] from a block
    that passed the filter. *)
Lemma heuristic_outline_elem nd title blocks h :
  h ∈ heuristic_outline nd title blocks →
  ∃ body_style b,
    _find_body_style blocks = Some body_style
    ∧ b ∈ blocks ∧ is_heading_block nd body_style b = true
    ∧ heading_of nd
        (style_to_level_of
           (heading_styles (List.filter (is_heading_block nd body_style) blocks)))
        title b = Some h.
Proof.
  unfold heuristic_outline. destruct blocks as [|b0 blocks]; [by inversion 1|].
  destruct (_find_body_style (b0 :: blocks)) as [body_style|] eqn:Hbs;
    [|by inversion 1].
  destruct (List.filter _ (b0 :: blocks)) as [|b1 hb] eqn:Hf; [by inversion 1|].
  rewrite elem_of_py_sorted, list_elem_of_omap. intros (b & Hb & Hh).
  exists body_style, b. rewrite Hf. rewrite <-Hf in Hb.
  apply list_elem_of_In, List.filter_In in Hb as [Hb Hkeep].
  apply list_elem_of_In in Hb. done.
Qed.

(** An entry of the heuristic path comes from a candidate whose size is
    one of the four largest. *)
Lemma heuristic_outline_rank nd title blocks h :
  h ∈ heuristic_outline nd title blocks →
  ∃ body_style b,
    _find_body_style blocks = Some body_style
    ∧ b ∈ List.filter (is_heading_block nd body_style) blocks
    ∧ h_text h = normalize (text b)
    ∧ (size_rank
         (candidate_sizes (List.filter (is_heading_block nd body_style) blocks))
         (style b).1 < 4)%nat.
Proof.
  intros (body_style & b & Hbs & Hb & Hkeep & Hh)%heuristic_outline_elem.
  exists body_style, b.
  assert (b ∈ List.filter (is_heading_block nd body_style) blocks) as Hin.
  { apply list_elem_of_In, List.filter_In. by rewrite <-list_elem_of_In. }
  split_and!; [done|done|by apply heading_of_Some in Hh as (-> & _)|].
  unfold heading_of in Hh.
  rewrite style_to_level_of_block, level_map_lookup in Hh by done.
  by destruct (Nat.ltb_spec
                 (size_rank (candidate_sizes
                    (List.filter (is_heading_block nd body_style) blocks))
                    (style b).1) 4).
Qed.

Lemma heuristic_outline_boxed nd title blocks h :
  h ∈ heuristic_outline nd title blocks → is_Some (h_bbox h).
Proof.
  intros (? & b & _ & _ & _ & Hh)%heuristic_outline_elem.
  apply heading_of_Some in Hh as (_ & _ & ->). eauto.
Qed.

(** The levels that come from the styles are between 1 and 4. *)
Lemma style_to_level_range styles st lvl :
  Dict.get (style_to_level_of styles) st = Some lvl → 1 ≤ lvl ≤ 4.
Proof.
  destruct (size_groups_of_spec styles) as (Hnd & _ & _).
  unfold style_to_level_of. intros Hg.
  apply assign_spec in Hg as (i & _ & Hl & _).
  - rewrite level_map_lookup in Hl.
    destruct (Nat.ltb_spec i 4); simplify_eq. lia.
  - by rewrite py_sorted_Permutation.
  - intros z. by rewrite elem_of_py_sorted.
Qed.

(** An entry of the heuristic path has a level of at least 1, and of at
    most 4 when its text has no numeric prefix. *)
Lemma heuristic_outline_level nd title blocks h :
  h ∈ heuristic_outline nd title blocks →
  1 ≤ level h ∧ (list_item_match nd (h_text h) = None → level h ≤ 4).
Proof.
  intros (body_style & b & _ & _ & _ & Hh)%heuristic_outline_elem.
  unfold heading_of in Hh.
  destruct (Dict.get _ _) as [lvl|] eqn:Hl; [|done].
  apply style_to_level_range in Hl.
  destruct (_ && _); [done|]. simplify_eq/=.
  destruct (list_item_match nd _) as [g|].
  - split; [unfold count_char; lia|done].
  - split; [lia|intros _; lia].
Qed.

Lemma get_page_is_Some doc i :
  0 ≤ i < Z.of_nat (length (pages doc)) → is_Some (get_page doc i).
Proof.
  intros Hi. unfold get_page. destruct (Z.ltb_spec i 0); [lia|].
  apply lookup_lt_is_Some. lia.
Qed.

Lemma section_of_is_Some doc heading box next :
  1 ≤ h_page_num heading ≤ Z.of_nat (length (pages doc)) →
  (∀ n, next = Some n → h_page_num n ≤ Z.of_nat (length (pages doc))) →
  is_Some (section_of doc heading box next).
Proof.
  intros Hh Hn. unfold section_of.
  assert (∃ b, section_bounds doc heading box next = Some b
               ∧ start_page b = h_page_num heading - 1
               ∧ end_page b ≤ Z.of_nat (length (pages doc)) - 1)
    as (b & -> & Hs & He).
  { unfold section_bounds. destruct (next ≫= _) as [[n nb]|] eqn:Hnext.
    - eexists. split_and!; [done..|]. simpl.
      destruct next as [n'|]; simplify_eq/=.
      destruct (h_bbox n'); simplify_eq/=. specialize (Hn _ eq_refl). lia.
    - destruct (get_page_is_Some doc (Z.of_nat (length (pages doc)) - 1))
        as [page ->]; [lia|].
      eexists. split_and!; [done..|]. simpl. lia. }
  assert (is_Some (mapM (page_content doc b)
                     (py_range (start_page b) (end_page b + 1))))
    as [parts Hparts].
  { apply mapM_is_Some_2, Forall_forall. intros i Hi. unfold py_range in Hi.
    apply elem_of_seqZ in Hi. unfold compose, page_content.
    destruct (get_page_is_Some doc i) as [page ->]; [lia|]. by eexists. }
  cbn -[py_range mapM]. destruct (mapM _ _) as [parts'|] eqn:Hm; [by eexists|].
  done.
Qed.

(** With page numbers of the document the sections are produced. *)
Lemma get_sections_is_Some doc entries :
  (∀ h, h ∈ entries → 1 ≤ h_page_num h ≤ Z.of_nat (length (pages doc))) →
  is_Some (get_sections doc entries).
Proof.
  induction entries as [|h rest IH]; intros Hall; [by eexists|].
  simpl. destruct IH as [secs Hsecs]; [intros; apply Hall; by right|].
  rewrite Hsecs. destruct (h_bbox h) as [box|]; [|by eexists].
  destruct (section_of_is_Some doc h box (head rest)) as [sec ->].
  - apply Hall. left.
  - intros n Hn. apply Hall. right. destruct rest; simplify_eq/=. left.
  - by eexists.
Qed.

(** ** Examples *)

Example normalize_example :
  normalize (lit "  3.2.1   Setup ") = lit "3.2.1 Setup".
Proof. reflexivity. Qed.

Example list_item_match_examples :
  list_item_match ascii_only (lit "3.2.1 Setup") = Some (lit "3.2.1")
  ∧ list_item_match ascii_only (lit "12 Results") = Some (lit "12")
  ∧ list_item_match ascii_only (lit "1. Introduction") = None
  ∧ list_item_match ascii_only (lit "1..2 Methods") = None
  ∧ list_item_match ascii_only (lit "2.1") = None.
Proof. by vm_compute. Qed.

Example has_extension_examples :
  has_extension (lit "notes.PDF") = true
  ∧ has_extension (lit "notes.docx") = true
  ∧ has_extension (lit "notes.docxx") = false
  ∧ has_extension (lit "notes.txt") = false
  ∧ has_extension (lit "pdf") = false.
Proof. by vm_compute. Qed.

(** The scenario of the specification gives the outline that it states. *)
Example scenario_outline :
  (λ h, (level h, h_text h)) <$> outline (get_outline ascii_only scenario_document)
  = [(1, lit "Introduction"); (2, lit "1.1 Background")].
Proof. by vm_compute. Qed.

Example five_size_outline :
  (λ h, (level h, h_text h))
    <$> outline (get_outline ascii_only five_size_document)
  = [(1, lit "Part One"); (2, lit "Chapter One"); (3, lit "Section One");
     (4, lit "Topic One")].
Proof. by vm_compute. Qed.

(** A text that starts with the bullet U+2022 is kept as a candidate: the
    class of line 107 does not hold that character. *)
Example bullet_item_is_kept :
  is_heading_block ascii_only (12, false) bullet_block = true.
Proof. reflexivity. Qed.

(** A text that starts with U+20AC and a space is not kept: that character
    is in the class of line 107. *)
Example euro_item_is_rejected :
  is_heading_block ascii_only (12, false) euro_block = false.
Proof. reflexivity. Qed.

Example clean_content_example :
  clean_content (lit "a line
wrapped here

next paragraph 
end") = lit "a line wrapped here
next paragraph  end".
Proof. reflexivity. Qed.

(** ** The theorems at the examples *)

Lemma style_level_by_size_rank_witness :
  setup_block ∈ five_headings
  ∧ heading_of ascii_only (style_to_level_of (heading_styles five_headings))
      [] setup_block = None.
Proof.
  assert (setup_block ∈ five_headings) as Hin.
  { vm_compute. do 4 right. left. }
  split; [exact Hin|].
  apply (style_level_by_size_rank ascii_only [] five_headings setup_block Hin).
  vm_compute. lia.
Defined.

Lemma numeric_prefix_override_witness :
  heading_of ascii_only [((14, true), 2)] [] setup_block
  = Some (mkHeading 3 (lit "3.2.1 Setup") 1 (Some (box 600 620))).
Proof.
  apply (numeric_prefix_override ascii_only [((14, true), 2)] [] setup_block 2);
    reflexivity.
Defined.


Lemma body_style_inference_witness :
  ∃ s, _find_body_style (text_blocks two_heading_document) = Some s
       ∧ ∀ b, b ∈ text_blocks two_heading_document → substantial b = true →
              total_words (style b) (text_blocks two_heading_document)
              ≤ total_words s (text_blocks two_heading_document).
Proof.
  destruct (proj1 (body_style_inference ascii_only two_heading_document)
              eq_refl) as (s & Hs & _ & Hmax).
  exists s. split; [exact Hs|exact Hmax].
Defined.


Lemma metadata_title_has_no_extension_witness :
  _extract_title titled_document = lit "Annual Report 2024"
  ∧ ¬ has_extension_suffix (lit "Annual Report 2024").
Proof.
  destruct (metadata_title_has_no_extension titled_document)
    as [(_ & _ & Ht & Hno)|[[Hnil|Hok] _]].
  - split; [reflexivity|exact Hno].
  - by vm_compute in Hnil.
  - by vm_compute in Hok.
Defined.


Lemma boxless_entries_have_no_section_witness :
  document_sections ascii_only native_document = Some [].
Proof.
  apply (boxless_entries_have_no_section ascii_only native_document []).
  by vm_compute.
Defined.

Lemma ranking_descending_stable_witness :
  let rank :=
    rank_sections length_embedding closeness Z.ltb
      (lit "Travel Planner") (lit "Plan a trip") in
  StronglySorted (λ x y, (relevance_score x <? relevance_score y) = false)
    (rank example_sections)
  ∧ rank (section <$> rank example_sections) = rank example_sections.
Proof.
  intros rank.
  destruct (ranking_descending_stable length_embedding closeness Z.ltb
              (lit "Travel Planner") (lit "Plan a trip") example_sections)
    as (_ & Hsorted & _ & Hidem).
  - intros a b Hab. lia.
  - intros a b c Hab Hbc. lia.
  - split; [exact Hsorted|exact Hidem].
Defined.

(** ** Texts: [strip], [split] and [join] *)

Lemma reverse_nil_inv {A} (l : list A) : reverse l = [] → l = [].
Proof.
  intros Hr%(f_equal length). rewrite length_reverse in Hr. by destruct l.
Qed.

Lemma lstrip_decompose s :
  ∃ sp, s = sp ++ lstrip s ∧ Forall (λ c, is_space c = true) sp.
Proof.
  induction s as [|c s (sp & Hs & Hsp)]; simpl.
  - by exists [].
  - destruct (is_space c) eqn:Hc.
    + exists (c :: sp). split; [by rewrite Hs at 1|by constructor].
    + by exists [].
Qed.

Lemma lstrip_fixed s :
  (∀ c, head s = Some c → is_space c = false) → lstrip s = s.
Proof. destruct s as [|c s]; [done|]. simpl. intros Hc. by rewrite Hc. Qed.

Lemma rstrip_decompose s :
  ∃ sp, s = rstrip s ++ sp ∧ Forall (λ c, is_space c = true) sp.
Proof.
  unfold rstrip. destruct (lstrip_decompose (reverse s)) as (sp & Hs & Hsp).
  exists (reverse sp). split.
  - by rewrite <-reverse_app, <-Hs, reverse_involutive.
  - by apply Forall_reverse.
Qed.

Lemma rstrip_last s c : last (rstrip s) = Some c → is_space c = false.
Proof.
  unfold rstrip. rewrite last_reverse.
  destruct (lstrip_spec (reverse s)) as (_ & _ & Hh). apply Hh.
Qed.

Lemma rstrip_fixed s :
  (∀ c, last s = Some c → is_space c = false) → rstrip s = s.
Proof.
  intros Hl. unfold rstrip. rewrite lstrip_fixed; [apply reverse_involutive|].
  intros c. rewrite head_reverse. apply Hl.
Qed.

Lemma strip_decompose s :
  ∃ sp1 sp2, s = sp1 ++ strip s ++ sp2
             ∧ Forall (λ c, is_space c = true) sp1
             ∧ Forall (λ c, is_space c = true) sp2.
Proof.
  unfold strip. destruct (lstrip_decompose s) as (sp1 & Hs1 & Hsp1).
  destruct (rstrip_decompose (lstrip s)) as (sp2 & Hs2 & Hsp2).
  exists sp1, sp2. by rewrite <-Hs2.
Qed.

Lemma strip_last s c : last (strip s) = Some c → is_space c = false.
Proof. apply rstrip_last. Qed.

Lemma strip_idempotent s : strip (strip s) = strip s.
Proof.
  unfold strip at 1. rewrite lstrip_fixed by apply strip_head.
  apply rstrip_fixed, strip_last.
Qed.

Lemma split_aux_spaces_l sp s :
  Forall (λ c, is_space c = true) sp → split_aux [] (sp ++ s) = split_aux [] s.
Proof. induction 1 as [|c sp Hc _ IH]; [done|]. simpl. by rewrite Hc. Qed.

Lemma split_aux_spaces_r cur s sp :
  Forall (λ c, is_space c = true) sp →
  split_aux cur (s ++ sp) = split_aux cur s.
Proof.
  intros Hsp. revert cur. induction s as [|c s IH]; intros cur; simpl.
  - revert cur. induction Hsp as [|c sp Hc _ IH]; intros cur; [done|].
    simpl. rewrite Hc. rewrite (IH []). by destruct cur.
  - destruct (is_space c); [|by rewrite IH]. by rewrite IH.
Qed.

Lemma split_strip s : split (strip s) = split s.
Proof.
  destruct (strip_decompose s) as (sp1 & sp2 & Hs & Hsp1 & Hsp2).
  unfold split. rewrite Hs at 2.
  by rewrite split_aux_spaces_l, split_aux_spaces_r.
Qed.

Lemma split_aux_words cur s :
  Forall (λ c, is_space c = false) cur → Forall word (split_aux cur s).
Proof.
  revert cur. induction s as [|c s IH]; intros cur Hcur; simpl.
  - destruct cur as [|c' cur]; [done|]. repeat constructor.
    + by intros ?%reverse_nil_inv.
    + by apply Forall_reverse.
  - destruct (is_space c) eqn:Hc.
    + destruct cur as [|c' cur]; [by apply IH|].
      constructor; [|by apply IH]. split.
      * by intros ?%reverse_nil_inv.
      * by apply Forall_reverse.
    + apply IH. by constructor.
Qed.

(** The words of [s.split()] are not empty and have no whitespace. *)
Lemma split_words s : Forall word (split s).
Proof. by apply split_aux_words. Qed.

Lemma split_aux_nil_iff cur s :
  split_aux cur s = [] ↔ cur = [] ∧ Forall (λ c, is_space c = true) s.
Proof.
  revert cur. induction s as [|c s IH]; intros cur; simpl.
  - destruct cur; naive_solver.
  - destruct (is_space c) eqn:Hc.
    + destruct cur as [|c' cur].
      * rewrite IH, Forall_cons. naive_solver.
      * naive_solver.
    + rewrite IH, Forall_cons. split; [by intros [? _]|].
      intros [_ [? _]]. congruence.
Qed.

Lemma split_nil_iff s : split s = [] ↔ Forall (λ c, is_space c = true) s.
Proof. unfold split. rewrite split_aux_nil_iff. naive_solver. Qed.

Lemma split_aux_word cur w s :
  Forall (λ c, is_space c = false) w →
  split_aux cur (w ++ s) = split_aux (reverse w ++ cur) s.
Proof.
  intros Hw. revert cur. induction Hw as [|c w Hc _ IH]; intros cur; [done|].
  simpl. rewrite Hc, IH, reverse_cons. by rewrite <-(assoc_L (++)).
Qed.

Lemma split_join ws : Forall word ws → split (join space ws) = ws.
Proof.
  unfold split. induction 1 as [|w ws [Hne Hw] Hws IH]; [done|].
  destruct ws as [|w' ws].
  - simpl. pose proof (split_aux_word [] w [] Hw) as Hs.
    rewrite !app_nil_r in Hs. rewrite Hs. simpl.
    destruct (reverse w) eqn:Hr; [by apply reverse_nil_inv in Hr|].
    by rewrite <-Hr, reverse_involutive.
  - change (join space (w :: w' :: ws))
      with (w ++ space ++ join space (w' :: ws)).
    rewrite split_aux_word, app_nil_r by done. simpl.
    destruct (reverse w) eqn:Hr; [by apply reverse_nil_inv in Hr|].
    rewrite <-Hr, reverse_involutive. f_equal. exact IH.
Qed.

(** [' '.join(s.split())] is the same on its result. *)
Lemma normalize_idempotent s : normalize (normalize s) = normalize s.
Proof. unfold normalize. by rewrite split_join by apply split_words. Qed.

Lemma visible_app a b : visible (a ++ b) = visible a ++ visible b.
Proof. apply List.filter_app. Qed.

Lemma visible_spaces sp :
  Forall (λ c, is_space c = true) sp → visible sp = [].
Proof.
  induction 1 as [|c sp Hc _ IH]; [done|].
  unfold visible in *. simpl. by rewrite Hc.
Qed.

Lemma visible_word w : Forall (λ c, is_space c = false) w → visible w = w.
Proof.
  induction 1 as [|c w Hc _ IH]; [done|].
  unfold visible in *. simpl. rewrite Hc. simpl. by rewrite IH.
Qed.

Lemma visible_strip s : visible (strip s) = visible s.
Proof.
  destruct (strip_decompose s) as (sp1 & sp2 & Hs & Hsp1 & Hsp2).
  rewrite Hs at 2.
  rewrite !visible_app, (visible_spaces sp1), (visible_spaces sp2) by done.
  by rewrite app_nil_r.
Qed.

Lemma concat_split_aux cur s :
  concat (split_aux cur s) = reverse cur ++ visible s.
Proof.
  revert cur. induction s as [|c s IH]; intros cur; simpl.
  - destruct cur; simpl; by rewrite ?app_nil_r.
  - unfold visible in *. simpl. destruct (is_space c) eqn:Hc; simpl.
    + destruct cur as [|c' cur]; simpl; by rewrite IH.
    + rewrite IH, reverse_cons. by rewrite <-(assoc_L (++)).
Qed.

Lemma visible_join ws : Forall word ws → visible (join space ws) = concat ws.
Proof.
  induction 1 as [|w ws [_ Hw] Hws IH]; [done|].
  destruct ws as [|w' ws].
  - simpl. by rewrite app_nil_r, visible_word.
  - change (join space (w :: w' :: ws))
      with (w ++ space ++ join space (w' :: ws)).
    rewrite !visible_app, visible_word, IH by done. done.
Qed.

(** Normalizing a text changes its whitespace only. *)
Lemma visible_normalize s : visible (normalize s) = visible s.
Proof.
  unfold normalize. rewrite visible_join by apply split_words.
  unfold split. by rewrite concat_split_aux.
Qed.

Lemma is_ascii_alpha_not_space c : is_ascii_alpha c = true → is_space c = false.
Proof.
  unfold is_ascii_alpha, is_space, in_range.
  rewrite orb_true_iff, !andb_true_iff, !N.leb_le. intros Hc.
  repeat (apply orb_false_iff; split);
    try (apply andb_false_iff; rewrite !N.leb_gt; lia);
    apply N.eqb_neq; lia.
Qed.

Lemma has_alpha_visible s : has_alpha (visible s) = has_alpha s.
Proof.
  apply eq_true_iff_eq. rewrite !has_alpha_iff, !Exists_exists.
  unfold visible. split.
  - intros (c & Hc & Ha). exists c. split; [|done].
    apply list_elem_of_In, List.filter_In in Hc as [Hc _].
    by apply list_elem_of_In.
  - intros (c & Hc & Ha). exists c. split; [|done].
    apply list_elem_of_In, List.filter_In. split; [by apply list_elem_of_In|].
    by rewrite is_ascii_alpha_not_space.
Qed.

Lemma has_alpha_strip s : has_alpha (strip s) = has_alpha s.
Proof. by rewrite <-has_alpha_visible, visible_strip, has_alpha_visible. Qed.

Lemma has_alpha_normalize s : has_alpha (normalize s) = has_alpha s.
Proof.
  by rewrite <-has_alpha_visible, visible_normalize, has_alpha_visible.
Qed.

Lemma has_alpha_split s : has_alpha s = true → split s ≠ [].
Proof.
  intros Ha Hnil%split_nil_iff. apply has_alpha_iff, Exists_exists in Ha
    as (c & Hc & Ha). rewrite Forall_forall in Hnil.
  apply is_ascii_alpha_not_space in Ha. rewrite Hnil in Ha; done.
Qed.

Lemma strip_fixed s :
  (∀ c, head s = Some c → is_space c = false) →
  (∀ c, last s = Some c → is_space c = false) → strip s = s.
Proof.
  intros Hh Hl. unfold strip. rewrite lstrip_fixed by done.
  by apply rstrip_fixed.
Qed.

Lemma join_head ws c :
  Forall word ws → head (join space ws) = Some c → is_space c = false.
Proof.
  intros Hws. destruct Hws as [|w ws [Hne Hw] _]; [done|].
  destruct Hw as [|c' w Hc' _]; [done|].
  destruct ws; simpl; by intros [= <-].
Qed.

Lemma join_last ws c :
  Forall word ws → last (join space ws) = Some c → is_space c = false.
Proof.
  induction 1 as [|w ws [Hne Hw] Hws IH]; [done|].
  destruct ws as [|w' ws].
  - simpl. intros Hl%last_Some_elem_of. rewrite Forall_forall in Hw. auto.
  - change (join space (w :: w' :: ws))
      with (w ++ space ++ join space (w' :: ws)).
    rewrite !last_app.
    destruct (last (join space (w' :: ws))) as [y|] eqn:Hy; [by intros [= <-]; auto|].
    apply last_None in Hy. apply Forall_cons in Hws as [[Hne' _] _].
    destruct w'; [done|]. destruct ws; done.
Qed.

(** A normalized text has no whitespace around it. *)
Lemma strip_normalize s : strip (normalize s) = normalize s.
Proof.
  apply strip_fixed; intros c.
  - apply join_head, split_words.
  - apply join_last, split_words.
Qed.

(** ** Pass 1: the text blocks *)

Lemma tally_occurrences {A} `{EqDecision A} (x : A) (l : list A) :
  tally (λ _, true) (λ _, 1) id x l = occurrences x l.
Proof.
  unfold occurrences. induction l as [|y l IH]; [done|].
  simpl. rewrite IH, filter_cons. unfold id.
  destruct (decide (y = x)) as [->|Hne].
  - rewrite bool_decide_eq_true_2 by done. simpl. lia.
  - by rewrite bool_decide_eq_false_2.
Qed.

(** [Counter(l).most_common(1)[0][0]] is an element of [l] that occurs
    most often. *)
Lemma most_common_1_spec {A} `{EqDecision A} (l : list A) x :
  most_common_1 (Counter l) = Some x →
  x ∈ l ∧ ∀ y, y ∈ l → occurrences y l ≤ occurrences x l.
Proof.
  intros Hm. unfold most_common_1 in Hm.
  destruct (tally_max (λ _, true) (λ _, 1) id l (Counter l) x)
    as [(y & Hy & _ & Hyx) Hle]; [done|done|].
  unfold id in Hyx. subst y. split; [done|].
  intros y Hy'. rewrite <-!tally_occurrences. by apply (Hle y).
Qed.

Lemma elem_of_concat {A} (x : A) (ls : list (list A)) :
  x ∈ concat ls ↔ ∃ l, x ∈ l ∧ l ∈ ls.
Proof.
  induction ls as [|l ls IH]; simpl.
  - split; [by inversion 1|]. intros (l & _ & Hl). inversion Hl.
  - rewrite elem_of_app, IH. set_solver.
Qed.

Lemma elem_of_get_text_blocks lower doc_pages b :
  b ∈ _get_text_blocks lower doc_pages ↔
  ∃ page block, page ∈ doc_pages ∧ block ∈ raw_blocks page
                ∧ text_block_of lower page block = Some b.
Proof.
  unfold _get_text_blocks. rewrite elem_of_concat. split.
  - intros (l & Hb & (page & -> & Hp)%list_elem_of_fmap).
    apply list_elem_of_omap in Hb as (block & Hblock & Hb). eauto.
  - intros (page & block & Hp & Hblock & Hb).
    exists (omap (text_block_of lower page) (raw_blocks page)). split.
    + apply list_elem_of_omap. eauto.
    + apply list_elem_of_fmap. eauto.
Qed.

Lemma text_block_of_Some lower page block b :
  text_block_of lower page block = Some b →
  raw_type block = 0
  ∧ strip (block_text block) ≠ []
  ∧ has_alpha (block_text block) = true
  ∧ most_common_1 (Counter (span_styles lower block)) = Some (style b)
  ∧ text b = strip (block_text block)
  ∧ bbox b = raw_bbox block
  ∧ page_num b = number page + 1
  ∧ num_lines b = Z.of_nat (length (raw_lines block))
  ∧ num_words b = Z.of_nat (length (split (block_text block))).
Proof.
  unfold text_block_of.
  destruct (Z.eqb_spec (raw_type block) 0) as [Ht|]; [|done].
  destruct (bool_decide (strip (block_text block) = [])) eqn:Hnil;
    [done|]. apply bool_decide_eq_false in Hnil.
  destruct (has_alpha (block_text block)) eqn:Ha; [|done]. simpl.
  destruct (span_styles lower block) as [|st styles]; [done|].
  destruct (most_common_1 (Counter (st :: styles))) as [d|]; [|done].
  simpl. intros [= <-]. done.
Qed.

(** Every block of pass 1 has a text without whitespace around it that has
    a letter of [a-z] or [A-Z], and its number of words is the number of
    words of that text, which is at least 1. *)
Theorem text_blocks_have_words (lower : str → str) (doc_pages : list RawPage)
    (b : Block) :
  b ∈ _get_text_blocks lower doc_pages →
  strip (text b) = text b
  ∧ Exists (λ c, is_ascii_alpha c = true) (text b)
  ∧ num_words b = Z.of_nat (length (split (text b)))
  ∧ 1 ≤ num_words b.
Proof.
  intros (page & block & _ & _ & Hb)%elem_of_get_text_blocks.
  apply text_block_of_Some in Hb
    as (_ & Hne & Ha & _ & Ht & _ & _ & _ & Hw).
  rewrite Ht, Hw. split_and!.
  - apply strip_idempotent.
  - apply has_alpha_iff. by rewrite has_alpha_strip.
  - by rewrite split_strip.
  - apply has_alpha_split in Ha.
    destruct (split (block_text block)); [done|]. simpl. lia.
Qed.

(** Every block of pass 1 comes from a layout block of type 0 of a page:
    it has its box, its number of lines and the page number plus 1, and
    its style is the style of one of its spans that no other style of its
    spans outnumbers. *)
Theorem text_block_dominant_style (lower : str → str)
    (doc_pages : list RawPage) (b : Block) :
  b ∈ _get_text_blocks lower doc_pages →
  ∃ page block,
    page ∈ doc_pages ∧ block ∈ raw_blocks page ∧ raw_type block = 0
    ∧ page_num b = number page + 1 ∧ bbox b = raw_bbox block
    ∧ num_lines b = Z.of_nat (length (raw_lines block))
    ∧ style b ∈ span_styles lower block
    ∧ ∀ st, st ∈ span_styles lower block →
            occurrences st (span_styles lower block)
            ≤ occurrences (style b) (span_styles lower block).
Proof.
  intros (page & block & Hp & Hblock & Hb)%elem_of_get_text_blocks.
  apply text_block_of_Some in Hb
    as (Ht & _ & _ & Hd & _ & Hbox & Hpage & Hlines & _).
  apply most_common_1_spec in Hd as [Hin Hmax].
  exists page, block. split_and!; done.
Qed.

(** ** The outline *)

Lemma Qltb_false a b : Qltb a b = false ↔ (b <= a)%Q.
Proof. unfold Qltb. rewrite negb_false_iff. apply Qle_bool_iff. Qed.

Lemma position_lt_false a b :
  position_lt a b = false ↔ b.1 < a.1 ∨ (b.1 = a.1 ∧ (b.2 <= a.2)%Q).
Proof.
  unfold position_lt. destruct (Z.eqb_spec a.1 b.1) as [Heq|Hne].
  - rewrite Qltb_false. split; [auto|]. intros [?|[_ ?]]; [lia|done].
  - rewrite Z.ltb_ge. split; [intros; left; lia|]. intros [?|[? _]]; lia.
Qed.

Lemma position_lt_asym a b :
  position_lt a b = true → position_lt b a = false.
Proof.
  intros Hab. apply position_lt_false.
  destruct (position_lt b a) eqn:Hba; [|by apply position_lt_false in Hba].
  unfold position_lt in *.
  destruct (Z.eqb_spec a.1 b.1) as [Heq|Hne].
  - rewrite Heq, Z.eqb_refl in Hba. unfold Qltb in *.
    apply negb_true_iff in Hab, Hba.
    destruct (Qle_bool a.2 b.2) eqn:H1; [done|].
    destruct (Qle_bool b.2 a.2) eqn:H2; [done|].
    assert (¬ (a.2 <= b.2)%Q) as Hn1 by (rewrite <-Qle_bool_iff; congruence).
    assert (¬ (b.2 <= a.2)%Q) as Hn2 by (rewrite <-Qle_bool_iff; congruence).
    apply Qnot_le_lt in Hn1, Hn2.
    destruct (Qlt_irrefl a.2). by eapply Qlt_trans.
  - destruct (Z.eqb_spec b.1 a.1); [congruence|]. lia.
Qed.

Lemma position_lt_neg_trans a b c :
  position_lt a b = false → position_lt b c = false →
  position_lt a c = false.
Proof.
  rewrite !position_lt_false.
  intros [?|[? Hab]] [?|[? Hbc]]; try (left; lia).
  right. split; [lia|]. by eapply Qle_trans.
Qed.

Lemma StronglySorted_weaken {A} (R1 R2 : relation A) l :
  (∀ x y, R1 x y → R2 x y) → StronglySorted R1 l → StronglySorted R2 l.
Proof.
  intros HR. induction 1 as [|x l Hl IH Hx]; constructor; [done|].
  eapply Forall_impl; eauto.
Qed.

(** The entries of the heuristic path are in the order of the pages and,
    on a page, of the tops of their boxes. *)
Theorem heuristic_outline_in_reading_order (unicode_decimal : char → bool)
    (title : str) (all_blocks : list Block) :
  StronglySorted reading_order
    (heuristic_outline unicode_decimal title all_blocks).
Proof.
  assert (∀ l, StronglySorted reading_order
                 (py_sorted position_lt position false l)) as Hsorted.
  { intros l. eapply StronglySorted_weaken;
      [|apply (py_sorted_ascending position_lt position);
         [apply position_lt_asym|apply position_lt_neg_trans]].
    intros x y Hxy. unfold not_after in Hxy.
    apply position_lt_false in Hxy. exact Hxy. }
  unfold heuristic_outline. destruct all_blocks; [constructor|].
  destruct (_find_body_style _); [|constructor].
  destruct (List.filter _ _); [constructor|]. apply Hsorted.
Qed.

(** No entry of the heuristic path is a heading of level 1 on page 1 whose
    text is the title. *)
Theorem title_is_not_a_heading (unicode_decimal : char → bool) (title : str)
    (all_blocks : list Block) (h : HeadingEntry) :
  h ∈ heuristic_outline unicode_decimal title all_blocks →
  ¬ (level h = 1 ∧ h_page_num h = 1 ∧ h_text h = title).
Proof.
  intros (body_style & b & _ & _ & _ & Hh)%heuristic_outline_elem.
  unfold heading_of in Hh. destruct (Dict.get _ _) as [lvl|]; [|done].
  destruct (_ && _) eqn:Hdup; [done|]. simplify_eq/=.
  intros (Hl & Hp & Ht). rewrite Hl, Hp in Hdup. simpl in Hdup.
  by rewrite bool_decide_eq_true_2 in Hdup.
Qed.

Lemma outline_cases nd doc h :
  h ∈ outline (get_outline nd doc) →
  (h ∈ native_outline (toc doc) ∧ h_bbox h = None)
  ∨ (h ∈ heuristic_outline nd (_extract_title doc) (text_blocks doc)
     ∧ is_Some (h_bbox h)).
Proof.
  destruct (decide (native_outline (toc doc) = [])) as [Hn|Hn].
  - rewrite get_outline_heuristic by done. simpl. intros Hh. right.
    split; [done|]. by eapply heuristic_outline_boxed.
  - rewrite get_outline_native by done. simpl. intros Hh. left.
    split; [done|]. by apply native_outline_levels in Hh as [_ ?].
Qed.

(** The text of every entry of the outline has no whitespace around it,
    and on the heuristic path its words are separated by single spaces:
    the text is its own normalization. *)
Theorem outline_texts_are_normalized (unicode_decimal : char → bool)
    (doc : Document) (h : HeadingEntry) :
  h ∈ outline (get_outline unicode_decimal doc) →
  strip (h_text h) = h_text h
  ∧ (is_Some (h_bbox h) → normalize (h_text h) = h_text h).
Proof.
  intros [[Hh Hbox]|[Hh _]]%outline_cases.
  - split; [|rewrite Hbox; by intros [? ?]].
    rewrite native_outline_filter in Hh.
    apply list_elem_of_fmap in Hh as (e & -> & _). apply strip_idempotent.
  - apply heuristic_outline_elem in Hh as (body_style & b & _ & _ & _ & Hh).
    apply heading_of_Some in Hh as (-> & _).
    split; [apply strip_normalize|intros _; apply normalize_idempotent].
Qed.

(** When the text blocks are those of pass 1, the text of every entry of
    the outline has a letter of [a-z] or [A-Z]. *)
Theorem outline_texts_have_letters (unicode_decimal : char → bool)
    (lower : str → str) (doc_pages : list RawPage) (doc : Document)
    (h : HeadingEntry) :
  text_blocks doc = _get_text_blocks lower doc_pages →
  h ∈ outline (get_outline unicode_decimal doc) →
  Exists (λ c, is_ascii_alpha c = true) (h_text h).
Proof.
  intros Hblocks [[Hh _]|[Hh _]]%outline_cases; apply has_alpha_iff.
  - unfold native_outline in Hh.
    by apply list_elem_of_In, List.filter_In in Hh as [_ Hh].
  - apply heuristic_outline_elem in Hh as (body_style & b & _ & Hb & _ & Hh).
    apply heading_of_Some in Hh as (-> & _). rewrite has_alpha_normalize.
    rewrite Hblocks in Hb.
    apply elem_of_get_text_blocks in Hb as (page & block & _ & _ & Hb).
    apply text_block_of_Some in Hb as (_ & _ & Ha & _ & -> & _).
    by rewrite has_alpha_strip.
Qed.

(** The level of every entry of the outline is at least 1. It is at most 4
    for the entries of a native outline and for the entries whose text has
    no numeric prefix; for an entry of the heuristic path whose text has
    one, it is the number of periods of the prefix plus 1. *)
Theorem outline_levels (unicode_decimal : char → bool) (doc : Document)
    (h : HeadingEntry) :
  h ∈ outline (get_outline unicode_decimal doc) →
  1 ≤ level h
  ∧ (h_bbox h = None → level h ≤ 4)
  ∧ (list_item_match unicode_decimal (h_text h) = None → level h ≤ 4)
  ∧ (∀ group1, is_Some (h_bbox h) →
       list_item_match unicode_decimal (h_text h) = Some group1 →
       level h = count_char 46%N group1 + 1).
Proof.
  intros [[Hh Hbox]|[Hh Hbox]]%outline_cases.
  - apply native_outline_levels in Hh as [Hl _].
    split_and!; [lia|intros; lia|intros; lia|].
    rewrite Hbox. by intros ? [? ?].
  - apply heuristic_outline_elem in Hh as (body_style & b & _ & _ & _ & Hh).
    unfold heading_of in Hh.
    destruct (Dict.get _ _) as [lvl|] eqn:Hl; [|done].
    apply style_to_level_range in Hl.
    destruct (_ && _); [done|]. simplify_eq/=.
    destruct (list_item_match unicode_decimal _) as [g|].
    + split_and!; [unfold count_char; lia|done|done|by intros ? _ [= <-]].
    + split_and!; [lia|intros; lia|intros; lia|done].
Qed.

(** Every entry of the outline comes from the document. An entry of a
    native outline is an entry of the table of contents, with its level and
    page and its text without the whitespace around it. An entry of the
    heuristic path is a text block, with its page, its box and its text
    normalized; the block has at most 30 words and at most 3 lines, and its
    style is more prominent than the body style. *)
Theorem outline_entries_come_from_the_document
    (unicode_decimal : char → bool) (doc : Document) (h : HeadingEntry) :
  h ∈ outline (get_outline unicode_decimal doc) →
  (∃ e, e ∈ toc doc ∧ h = toc_entry e)
  ∨ (∃ b body_style,
       b ∈ text_blocks doc
       ∧ _find_body_style (text_blocks doc) = Some body_style
       ∧ h_text h = normalize (text b) ∧ h_page_num h = page_num b
       ∧ h_bbox h = Some (bbox b)
       ∧ num_words b ≤ 30 ∧ num_lines b ≤ 3
       ∧ more_prominent (style b) body_style).
Proof.
  intros [[Hh _]|[Hh _]]%outline_cases.
  - left. rewrite native_outline_filter in Hh.
    apply list_elem_of_fmap in Hh as (e & -> & He).
    apply list_elem_of_filter in He as [_ He]. by exists e.
  - right.
    apply heuristic_outline_elem in Hh as (body_style & b & Hbs & Hb & Hk & Hh).
    apply heading_of_Some in Hh as (Ht & Hp & Hbox).
    exists b, body_style. split_and!; try done.
    + unfold is_heading_block in Hk.
      destruct (Z.ltb_spec 30 (num_words b)); [done|lia].
    + unfold is_heading_block in Hk.
      destruct (Z.ltb_spec 3 (num_lines b)); [by rewrite orb_true_r in Hk|lia].
    + apply is_candidate_iff. unfold is_heading_block in Hk.
      destruct (_ || _); [done|].
      by destruct (is_candidate (style b) body_style).
Qed.

(** ** The title of the first page *)

(** A dictionary of lists that is filled by appending, as [font_sizes]
    is. *)
Section grouping.
Context {K V : Type} `{EqDecision K}.
Implicit Types (l : list (K * V)) (d : Dict.dict K (list V)).

Local Abbreviation group_step :=
  (λ d (p : K * V), Dict.update (λ vs, vs ++ [p.2]) [] p.1 d).

Lemma get_grouped l d k :
  Dict.get (foldl group_step d l) k =
    match Dict.get d k with
    | Some vs => Some (vs ++ (filter (λ p, p.1 = k) l).*2)
    | None =>
        match (filter (λ p, p.1 = k) l).*2 with
        | [] => None
        | vs => Some vs
        end
    end.
Proof.
  revert d. induction l as [|[k' v] l IH]; intros d.
  - simpl. destruct (Dict.get d k); [by rewrite app_nil_r|done].
  - cbn [foldl]. rewrite IH, get_update, filter_cons. cbn [fst snd].
    destruct (decide (k = k')) as [->|Hne].
    + rewrite decide_True by done. cbn [fmap list_fmap snd].
      destruct (Dict.get d k') as [vs|]; simpl.
      * by rewrite <-(assoc_L (++)).
      * done.
    + rewrite decide_False by done. done.
Qed.

Lemma keys_grouped l k :
  k ∈ Dict.keys (foldl group_step [] l) ↔ k ∈ l.*1.
Proof.
  rewrite elem_of_keys, get_grouped. simpl.
  rewrite list_elem_of_fmap. split.
  - destruct (filter _ l) as [|p ps] eqn:Hf; [by intros [? ?]|]. intros _.
    assert (p ∈ filter (λ p, p.1 = k) l) as [Hk Hp]%list_elem_of_filter
      by (rewrite Hf; left).
    by exists p.
  - intros (p & -> & Hp).
    assert (p ∈ filter (λ q, q.1 = p.1) l) as Hin
      by (by apply list_elem_of_filter).
    destruct (filter _ l); [by inversion Hin|]. by eexists.
Qed.
End grouping.

Lemma line_text_spans l : line_text l ≠ [] → spans l ≠ [].
Proof. unfold line_text. intros Hne Hs. apply Hne. by rewrite Hs. Qed.

Lemma add_title_line_step d l :
  add_title_line d l
  = foldl (λ d (p : Z * str), Dict.update (λ vs, vs ++ [p.2]) [] p.1 d) d
      (if title_line_ok (line_text l) then [(avg_size l, line_text l)] else []).
Proof.
  unfold add_title_line. destruct (title_line_ok (line_text l)) eqn:Hok; [|done].
  destruct (spans l) eqn:Hs; [|done].
  unfold title_line_ok in Hok. apply andb_prop in Hok as [[Hne _]%andb_prop _].
  apply negb_true_iff, bool_decide_eq_false in Hne.
  by apply line_text_spans in Hne.
Qed.

Lemma font_sizes_from d blocks :
  foldl add_title_block d blocks
  = foldl (λ d (p : Z * str), Dict.update (λ vs, vs ++ [p.2]) [] p.1 d) d
      (title_lines blocks).
Proof.
  revert d. induction blocks as [|b blocks IH]; intros d; [done|].
  cbn [foldl]. rewrite IH. unfold title_lines. cbn [mbind list_bind].
  rewrite foldl_app. f_equal. unfold add_title_block.
  destruct (block_type b =? 0); [|done].
  generalize (lines b). intros ls. revert d.
  induction ls as [|l ls IHl]; intros d; [done|].
  cbn [foldl mbind list_bind]. rewrite foldl_app, IHl. f_equal.
  apply add_title_line_step.
Qed.

(** The title of the first page is the text of the lines of the largest
    size among the lines that can be part of the title, in their order,
    joined by spaces; it is empty when there is no page or no such line. *)
Theorem title_from_page_largest_lines (doc : Document) :
  let candidates := title_lines (title_area doc) in
  (pages doc = [] → title_from_page doc = [])
  ∧ (candidates = [] → title_from_page doc = [])
  ∧ (∀ m, pages doc ≠ [] → m ∈ candidates.*1 →
          (∀ k, k ∈ candidates.*1 → k ≤ m) →
          title_from_page doc
          = join space (filter (λ p, p.1 = m) candidates).*2).
Proof.
  intros candidates. unfold title_from_page, font_sizes.
  rewrite font_sizes_from. fold candidates. split_and!.
  - by intros ->.
  - intros ->. by destruct (pages doc).
  - intros m Hp Hm Hmax. destruct (pages doc); [done|].
    set (fs := foldl (λ d (p : Z * str),
                        Dict.update (λ vs, vs ++ [p.2]) [] p.1 d) [] candidates).
    destruct (py_max id (Dict.keys fs)) as [m'|] eqn:Hpm.
    + apply py_max_Some in Hpm as [Hm' Hmax'].
      assert (m' = m) as ->.
      { pose proof (Hm' : m' ∈ Dict.keys fs) as Hk.
        apply (proj1 (keys_grouped candidates m')) in Hk. apply Hmax in Hk.
        specialize (Hmax' m (proj2 (keys_grouped candidates m) Hm)).
        unfold id in Hmax'. lia. }
      unfold fs. rewrite get_grouped. simpl.
      by destruct ((filter _ candidates).*2).
    + apply (proj2 (keys_grouped candidates m)) in Hm. fold fs in Hm.
      destruct (Dict.keys fs); [inversion Hm|done].
Qed.

(** ** The sections of a document *)

Lemma heuristic_outline_pages nd title blocks h :
  h ∈ heuristic_outline nd title blocks →
  ∃ b, b ∈ blocks ∧ h_page_num h = page_num b.
Proof.
  intros (body_style & b & _ & Hb & _ & Hh)%heuristic_outline_elem.
  apply heading_of_Some in Hh as (_ & Hp & _). eauto.
Qed.

(** On the heuristic path, when the page numbers of the text blocks are
    page numbers of the document, the sections are produced, and there is
    one for each entry of the outline, in the order of the outline, with
    the text and the page number of the entry as title and page number. *)
Theorem sections_follow_the_outline (unicode_decimal : char → bool)
    (doc : Document) :
  native_outline (toc doc) = [] →
  (∀ b, b ∈ text_blocks doc →
        1 ≤ page_num b ≤ Z.of_nat (length (pages doc))) →
  ∃ secs,
    document_sections unicode_decimal doc = Some secs
    ∧ (λ s, (section_title s, page_number s)) <$> secs
      = (λ h, (h_text h, h_page_num h))
          <$> outline (get_outline unicode_decimal doc).
Proof.
  intros Hn Hpages. unfold document_sections.
  rewrite get_outline_heuristic by done. simpl.
  set (entries := heuristic_outline _ _ _).
  destruct (get_sections_is_Some doc entries) as [secs Hsecs].
  { intros h (b & Hb & ->)%heuristic_outline_pages. by apply Hpages. }
  exists secs. split; [done|].
  rewrite (get_sections_titles _ _ _ Hsecs), filter_all; [done|].
  intros h Hh. by eapply heuristic_outline_boxed.
Qed.

Lemma get_sections_elem doc entries secs s :
  get_sections doc entries = Some secs → s ∈ secs →
  ∃ pre heading box rest,
    entries = pre ++ heading :: rest ∧ h_bbox heading = Some box
    ∧ section_of doc heading box (head rest) = Some s.
Proof.
  revert secs. induction entries as [|h rest IH]; intros secs Hsecs Hs.
  { simplify_eq/=. inversion Hs. }
  destruct (h_bbox h) as [box|] eqn:Hbox.
  - destruct (get_sections_cons_boxed _ _ _ _ _ Hbox Hsecs)
      as (sec & secs' & -> & Hsec & Hrest).
    apply elem_of_cons in Hs as [->|Hs].
    + exists [], h, box, rest. done.
    + destruct (IH _ Hrest Hs) as (pre & h' & box' & rest' & -> & ? & ?).
      exists (h :: pre), h', box', rest'. done.
  - simpl in Hsecs. rewrite Hbox in Hsecs.
    destruct (IH _ Hsecs Hs) as (pre & h' & box' & rest' & -> & ? & ?).
    exists (h :: pre), h', box', rest'. done.
Qed.

(** The span of every section of an outline in the order of the pages,
    with boxes and page numbers of the document, is within the document
    and does not end before it starts; the sections are in the order of
    the pages. *)
Theorem section_spans_are_within_the_document (doc : Document)
    (entries : list HeadingEntry) (secs : list Section) :
  StronglySorted reading_order entries →
  (∀ h, h ∈ entries → is_Some (h_bbox h)) →
  (∀ h, h ∈ entries → 1 ≤ h_page_num h ≤ Z.of_nat (length (pages doc))) →
  get_sections doc entries = Some secs →
  StronglySorted Z.le (page_number <$> secs)
  ∧ ∀ s, s ∈ secs →
         start_page (bounds s) = page_number s - 1
         ∧ 0 ≤ start_page (bounds s) ≤ end_page (bounds s)
         ∧ end_page (bounds s) < Z.of_nat (length (pages doc)).
Proof.
  intros Hsorted Hboxed Hpages Hsecs. split.
  - pose proof (get_sections_titles _ _ _ Hsecs) as Ht.
    rewrite filter_all in Ht by done.
    apply (f_equal (fmap snd)) in Ht. rewrite <-!list_fmap_compose in Ht.
    change (page_number <$> secs = h_page_num <$> entries) in Ht.
    rewrite Ht. clear Ht Hsecs Hboxed Hpages.
    induction Hsorted as [|x l Hl IH Hx]; [constructor|].
    cbn [fmap list_fmap]. constructor; [done|].
    apply Forall_fmap. eapply Forall_impl; [done|].
    intros y [?|[? _]]; simpl; lia.
  - intros s Hs.
    destruct (get_sections_elem _ _ _ _ Hsecs Hs)
      as (pre & h & box & rest & -> & Hbox & Hsec).
    apply section_of_bounds in Hsec as (Hb & _ & Hp).
    destruct (section_bounds_start _ _ _ _ _ Hb) as [Hstart _].
    assert (1 ≤ h_page_num h ≤ Z.of_nat (length (pages doc))) as Hh
      by (apply Hpages; set_solver).
    rewrite Hp. split; [done|]. rewrite Hstart.
    destruct rest as [|n rest].
    + destruct (section_bounds_last doc h box None (bounds s) eq_refl Hb)
        as (_ & _ & -> & _). lia.
    + destruct (Hboxed n ltac:(set_solver)) as [nbox Hnbox].
      destruct (section_bounds_next _ _ _ _ _ _ Hnbox Hb) as [-> _].
      assert (1 ≤ h_page_num n ≤ Z.of_nat (length (pages doc))) as Hn
        by (apply Hpages; set_solver).
      apply StronglySorted_app_1_r in Hsorted.
      apply StronglySorted_inv in Hsorted as [_ Hall].
      apply Forall_cons in Hall as [[?|[? _]] _]; lia.
Qed.

(** *** The cleaned text *)

Lemma has_blank_line_cons c s :
  has_blank_line (c :: s) ↔
  (c = newline ∧ head s = Some newline) ∨ has_blank_line s.
Proof.
  unfold has_blank_line. split.
  - intros (pre & post & Heq). destruct pre as [|c' pre]; simplify_eq/=.
    + left. done.
    + right. eauto.
  - intros [[-> Hh]|(pre & post & ->)].
    + destruct s as [|c' s]; simplify_eq/=. by exists [], s.
    + by exists (c :: pre), post.
Qed.

Lemma collapse_newlines_head after s :
  head (collapse_newlines after s) = Some newline → after = false.
Proof.
  revert after. induction s as [|c s IH]; intros after; [done|].
  simpl. destruct (char_eqb c newline) eqn:Hc.
  - destruct after; [|done]. intros Hh. by apply IH in Hh.
  - simpl. intros [= ->]. by vm_compute in Hc.
Qed.

Lemma collapse_newlines_no_blank_line after s :
  ¬ has_blank_line (collapse_newlines after s).
Proof.
  revert after. induction s as [|c s IH]; intros after.
  { intros (pre & post & Heq). by destruct pre. }
  simpl. destruct (char_eqb c newline) eqn:Hc.
  - destruct after; [apply IH|].
    rewrite has_blank_line_cons. intros [[_ Hh]|Hb]; [|by apply IH in Hb].
    by apply collapse_newlines_head in Hh.
  - rewrite has_blank_line_cons. intros [[-> _]|Hb]; [|by apply IH in Hb].
    by vm_compute in Hc.
Qed.

Lemma has_blank_line_strip s : has_blank_line (strip s) → has_blank_line s.
Proof.
  destruct (strip_decompose s) as (sp1 & sp2 & Hs & _ & _).
  intros (pre & post & Heq). rewrite Hs, Heq.
  exists (sp1 ++ pre), (post ++ sp2). by rewrite <-!(assoc_L (++)).
Qed.

Lemma clean_content_no_blank_line s : ¬ has_blank_line (clean_content s).
Proof.
  unfold clean_content. intros Hb%has_blank_line_strip.
  by apply collapse_newlines_no_blank_line in Hb.
Qed.

(** The content of every section is its title, a newline, and a text that
    has no whitespace around it and no empty line. *)
Theorem section_content_shape (doc : Document) (entries : list HeadingEntry)
    (secs : list Section) (s : Section) :
  get_sections doc entries = Some secs → s ∈ secs →
  ∃ body, content s = section_title s ++ [newline] ++ body
          ∧ strip body = body ∧ ¬ has_blank_line body.
Proof.
  intros Hsecs Hs.
  destruct (get_sections_elem _ _ _ _ Hsecs Hs)
    as (pre & h & box & rest & _ & _ & Hsec).
  unfold section_of in Hsec.
  destruct (section_bounds doc h box (head rest)) as [b|]; [|done].
  simpl in Hsec. destruct (mapM _ _) as [parts|]; [|done].
  simplify_eq/=. exists (clean_content (concat parts)). split_and!.
  - done.
  - apply strip_idempotent.
  - apply clean_content_no_blank_line.
Qed.

Lemma visible_join_wrapped_lines after s :
  visible (join_wrapped_lines after s) = visible s.
Proof.
  revert after. induction s as [|c s IH]; intros after; [done|].
  simpl. destruct (char_eqb c newline) eqn:Hc.
  - apply N.eqb_eq in Hc as ->. unfold visible in *. simpl.
    destruct (negb after && _); simpl; apply IH.
  - unfold visible in *. simpl. by rewrite IH.
Qed.

Lemma visible_cons c s :
  visible (c :: s) = if is_space c then visible s else c :: visible s.
Proof. unfold visible. simpl. by destruct (is_space c). Qed.

Lemma fold_space_newline_cons c c' s :
  fold_space_newline (c :: c' :: s)
  = if char_eqb c 32%N && char_eqb c' newline
    then newline :: fold_space_newline s
    else c :: fold_space_newline (c' :: s).
Proof. reflexivity. Qed.

Lemma visible_fold_space_newline s :
  visible (fold_space_newline s) = visible s.
Proof.
  assert (∀ n s, (length s ≤ n)%nat →
                 visible (fold_space_newline s) = visible s) as Hn;
    [|by eapply Hn].
  induction n as [|n IH]; intros s' Hlen.
  { destruct s'; [done|simpl in Hlen; lia]. }
  destruct s' as [|c [|c' s']]; [done|done|].
  rewrite fold_space_newline_cons.
  destruct (char_eqb c 32%N && char_eqb c' newline) eqn:Hc.
  - apply andb_prop in Hc as [->%N.eqb_eq ->%N.eqb_eq].
    rewrite !visible_cons. simpl. apply IH. simpl in Hlen. lia.
  - rewrite !(visible_cons c). rewrite IH by (simpl in *; lia). done.
Qed.

Lemma visible_collapse_newlines after s :
  visible (collapse_newlines after s) = visible s.
Proof.
  revert after. induction s as [|c s IH]; intros after; [done|].
  simpl. destruct (char_eqb c newline) eqn:Hc.
  - apply N.eqb_eq in Hc as ->. unfold visible in *. simpl.
    destruct after; simpl; apply IH.
  - unfold visible in *. simpl. by rewrite IH.
Qed.

(** Cleaning a text changes its whitespace only: the other characters are
    kept, in their order. *)
Theorem clean_content_keeps_the_text (s : str) :
  visible (clean_content s) = visible s.
Proof.
  unfold clean_content.
  by rewrite visible_strip, visible_collapse_newlines,
    visible_fold_space_newline, visible_join_wrapped_lines.
Qed.

(** ** The main program *)

Section sorted_fmap.
Context {A B K : Type} (lt : K → K → bool) (key : B → K) (f : A → B).

Lemma insert_sorted_fmap x l :
  insert_sorted lt key (f x) (f <$> l)
  = f <$> insert_sorted lt (key ∘ f) x l.
Proof.
  induction l as [|y l IH]; [done|]. cbn. unfold compose.
  destruct (lt (key (f y)) (key (f x))); [|done]. cbn. f_equal. exact IH.
Qed.

Lemma sort_asc_fmap l :
  sort_asc lt key (f <$> l) = f <$> sort_asc lt (key ∘ f) l.
Proof.
  induction l as [|x l IH]; [done|]. cbn.
  etrans; [|apply insert_sorted_fmap]. f_equal. exact IH.
Qed.

Lemma py_sorted_fmap rev l :
  py_sorted lt key rev (f <$> l) = f <$> py_sorted lt (key ∘ f) rev l.
Proof.
  unfold py_sorted. destruct rev; [|apply sort_asc_fmap].
  by rewrite <-fmap_reverse, sort_asc_fmap, fmap_reverse.
Qed.
End sorted_fmap.

Lemma elem_of_take_1 {A} n (l : list A) x : x ∈ take n l → x ∈ l.
Proof. intros Hx. rewrite <-(take_drop n l). apply elem_of_app. by left. Qed.

Lemma imap_ignore {A B} (g : A → B) (l : list A) :
  imap (λ _ x, g x) l = g <$> l.
Proof. apply (imap_const g). Qed.

Section main_facts.
Context {vec score : Type}.
Context (nd : char → bool) (encode : str → vec).
Context (cosine_similarity : vec → vec → score).
Context (score_lt : score → score → bool).
Context (pdf_path_of basename : str → str).
Context (open_document : str → option Document).

Local Abbreviation collect :=
  (collect_sections nd pdf_path_of basename open_document).
Local Abbreviation rank := (rank_doc_sections encode cosine_similarity score_lt).
Local Abbreviation output :=
  (main_output nd encode cosine_similarity score_lt pdf_path_of basename
     open_document).

Lemma rank_doc_sections_sorted persona job l :
  rank persona job l
  = py_sorted score_lt snd true
      ((λ s, (s, cosine_similarity (encode (query persona job))
                   (encode (content (doc_section s))))) <$> l).
Proof.
  unfold rank_doc_sections. destruct l as [|s l]; [done|].
  f_equal. by rewrite <-!list_fmap_compose, zip_with_fmap_same.
Qed.

(** The ranking of [main] is [rank_sections] on the sections, with the
    key [document] carried along. *)
Lemma rank_doc_sections_as_rank_sections persona job l :
  (λ p, mkRanked (doc_section p.1) p.2) <$> rank persona job l
  = rank_sections encode cosine_similarity score_lt persona job
      (doc_section <$> l).
Proof.
  rewrite rank_sections_sorted, rank_doc_sections_sorted.
  rewrite <-list_fmap_compose.
  rewrite <-(py_sorted_fmap score_lt relevance_score
               (λ p : DocSection * score, mkRanked (doc_section p.1) p.2)).
  by rewrite <-list_fmap_compose.
Qed.

Lemma length_rank persona job l : length (rank persona job l) = length l.
Proof.
  by rewrite rank_doc_sections_sorted, length_py_sorted, length_fmap.
Qed.

Lemma elem_of_rank persona job l p :
  p ∈ rank persona job l → p.1 ∈ l.
Proof.
  rewrite rank_doc_sections_sorted, elem_of_py_sorted, list_elem_of_fmap.
  by intros (s & -> & Hs).
Qed.

Lemma mapM_id_Some {A} (l : list (option A)) k :
  mapM id l = Some k ↔ l = Some <$> k.
Proof.
  rewrite mapM_Some. split.
  - induction 1 as [|x y l k Hxy _ IH]; [done|]. simpl in *. by subst.
  - intros ->. induction k; by constructor.
Qed.

Lemma main_output_Some config out :
  output config = Some out →
  documents config = Some <$> input_documents out
  ∧ extracted_sections out
    = extracted_of (rank (role config) (task config) (collect config))
  ∧ subsection_analysis out
    = subsections_of (rank (role config) (task config) (collect config)).
Proof.
  unfold main_output.
  destruct (mapM id (documents config)) as [filenames|] eqn:Hf; [|done].
  simpl. intros [= <-]. simpl. by apply mapM_id_Some in Hf.
Qed.

Lemma elem_of_collect config s :
  s ∈ collect config →
  ∃ filename doc secs sec,
    Some filename ∈ documents config
    ∧ open_document (pdf_path_of filename) = Some doc
    ∧ document_sections nd doc = Some secs ∧ sec ∈ secs
    ∧ s = mkDocSection (basename (pdf_path_of filename)) sec.
Proof.
  unfold collect_sections. rewrite elem_of_concat.
  intros (l & Hs & (path & -> & Hpath)%list_elem_of_fmap).
  apply list_elem_of_fmap in Hpath as (filename & -> & Hf).
  apply list_elem_of_omap in Hf as (o & Ho & Hid). unfold id in Hid. subst o.
  unfold sections_of_path in Hs.
  destruct (open_document (pdf_path_of filename)) as [doc|] eqn:Hdoc;
    [|by inversion Hs].
  destruct (document_sections nd doc) as [secs|] eqn:Hsecs; [|by inversion Hs].
  apply list_elem_of_fmap in Hs as (sec & -> & Hsec).
  exists filename, doc, secs, sec. done.
Qed.
End main_facts.


(** The output lists the first ten sections of the ranking with the ranks
    1, 2, ... in that order, and the analysis has the first five of them:
    with [n] sections in all there are [min 10 n] and [min 5 n] entries,
    and the documents and page numbers of the analysis are those of the
    first five listed sections. *)
Theorem main_output_top_sections {vec score : Type}
    (unicode_decimal : char → bool) (encode : str → vec)
    (cosine_similarity : vec → vec → score) (score_lt : score → score → bool)
    (pdf_path_of basename : str → str)
    (open_document : str → option Document) (config : Config)
    (out : OutputData) :
  main_output unicode_decimal encode cosine_similarity score_lt
    pdf_path_of basename open_document config = Some out →
  let n :=
    length (collect_sections unicode_decimal pdf_path_of basename
              open_document config) in
  length (extracted_sections out) = (10 `min` n)%nat
  ∧ length (subsection_analysis out) = (5 `min` n)%nat
  ∧ (∀ i e, extracted_sections out !! i = Some e →
            importance_rank e = Z.of_nat i + 1)
  ∧ (λ a, (sa_document a, sa_page_number a)) <$> subsection_analysis out
    = take 5 ((λ e, (es_document e, es_page_number e))
                <$> extracted_sections out).
Proof.
  intros (_ & -> & ->)%main_output_Some n. subst n.
  unfold extracted_of, subsections_of. split_and!.
  - by rewrite length_imap, length_take, length_rank.
  - by rewrite length_fmap, length_take, length_rank.
  - intros i e. rewrite list_lookup_imap.
    destruct (take 10 _ !! i); [|done]. by intros [= <-].
  - rewrite fmap_imap, <-list_fmap_compose.
    rewrite (imap_ext _ (λ _ p, (document p.1, page_number (doc_section p.1))))
      by done.
    rewrite (imap_ignore (λ p : DocSection * score,
                            (document p.1, page_number (doc_section p.1)))).
    rewrite <-fmap_take, take_take. done.
Qed.

(** Every listed section comes from a document of the configuration that
    was opened and sectioned: it has the base name of its path as document
    and the title and page of one of its sections. A document that is
    missing or fails gives no section. *)
Theorem main_output_provenance {vec score : Type}
    (unicode_decimal : char → bool) (encode : str → vec)
    (cosine_similarity : vec → vec → score) (score_lt : score → score → bool)
    (pdf_path_of basename : str → str)
    (open_document : str → option Document) (config : Config)
    (out : OutputData) (e : ExtractedSection) :
  main_output unicode_decimal encode cosine_similarity score_lt
    pdf_path_of basename open_document config = Some out →
  e ∈ extracted_sections out →
  ∃ filename doc secs sec,
    filename ∈ input_documents out
    ∧ open_document (pdf_path_of filename) = Some doc
    ∧ document_sections unicode_decimal doc = Some secs ∧ sec ∈ secs
    ∧ es_document e = basename (pdf_path_of filename)
    ∧ es_section_title e = section_title sec
    ∧ es_page_number e = page_number sec.
Proof.
  intros (Hdocs & -> & _)%main_output_Some He.
  unfold extracted_of in He.
  apply elem_of_lookup_imap_1 in He as (i & p & -> & Hp).
  apply list_elem_of_lookup_2, elem_of_take_1, elem_of_rank, elem_of_collect in Hp
    as (filename & doc & secs & sec & Hf & Hdoc & Hsecs & Hsec & Heq).
  exists filename, doc, secs, sec. rewrite Heq. split_and!; try done.
  rewrite Hdocs in Hf. by apply list_elem_of_fmap in Hf as (? & [= <-] & ?).
Qed.

(** The listed sections are the first ten of the collected sections in
    descending order of their similarity to the query: the ranking is a
    permutation of the collected sections with their scores, none of its
    entries has a score below that of a later entry, and the listed
    documents, titles and pages are those of its first ten entries. *)
Theorem main_output_by_relevance {vec score : Type}
    (unicode_decimal : char → bool) (encode : str → vec)
    (cosine_similarity : vec → vec → score) (score_lt : score → score → bool)
    (pdf_path_of basename : str → str)
    (open_document : str → option Document) (config : Config)
    (out : OutputData) :
  (∀ a b, score_lt a b = true → score_lt b a = false) →
  (∀ a b c, score_lt a b = false → score_lt b c = false →
            score_lt a c = false) →
  main_output unicode_decimal encode cosine_similarity score_lt
    pdf_path_of basename open_document config = Some out →
  let similarity (s : DocSection) :=
    cosine_similarity (encode (query (role config) (task config)))
      (encode (content (doc_section s))) in
  ∃ ranked : list (DocSection * score),
    ranked ≡ₚ (λ s, (s, similarity s))
                <$> collect_sections unicode_decimal pdf_path_of basename
                      open_document config
    ∧ StronglySorted (λ x y, score_lt x.2 y.2 = false) ranked
    ∧ (λ e, (es_document e, es_section_title e, es_page_number e))
        <$> extracted_sections out
      = (λ p, (document p.1, section_title (doc_section p.1),
               page_number (doc_section p.1))) <$> take 10 ranked.
Proof.
  intros Hasym Htrans (_ & -> & _)%main_output_Some similarity.
  exists (rank_doc_sections encode cosine_similarity score_lt (role config)
            (task config)
            (collect_sections unicode_decimal pdf_path_of basename
               open_document config)).
  split_and!.
  - rewrite rank_doc_sections_sorted. apply py_sorted_Permutation.
  - rewrite rank_doc_sections_sorted.
    by apply (py_sorted_descending score_lt snd).
  - unfold extracted_of. rewrite fmap_imap.
    by rewrite <-(imap_ignore (λ p : DocSection * score,
                    (document p.1, section_title (doc_section p.1),
                     page_number (doc_section p.1)))).
Qed.

(** ** Opening a document *)

Lemma drive_prefix_iff p :
  found (rmatch drive_prefix p) = true ↔
  ∃ c rest, p = c :: 58%N :: 92%N :: rest ∧ is_ascii_alpha c = true.
Proof.
  rewrite rmatch_iff. unfold drive_prefix. split.
  - intros (s1 & s2 & -> & Hm).
    apply matches_Seq in Hm as (a & b & -> & (c & -> & Hc)%matches_Class & Hm).
    apply matches_Seq in Hm as (? & ? & -> & ->%matches_Chr & ->%matches_Chr).
    by exists c, s2.
  - intros (c & rest & -> & Hc). exists [c; 58%N; 92%N], rest.
    split; [done|]. apply (m_seq _ _ [c] [_; _]); [by constructor|].
    apply (m_seq _ _ [_] [_]); by apply matches_Chr.
Qed.

Lemma drive_prefix_long p :
  found (rmatch drive_prefix (long_path_prefix ++ p)) = false.
Proof.
  destruct (found _) eqn:Hd; [|done].
  apply drive_prefix_iff in Hd as (c & rest & Heq & Hc).
  unfold long_path_prefix in Heq. by simplify_eq/=.
Qed.

Lemma open_path_cases p :
  ((260 < length p)%nat ∧ found (rmatch drive_prefix p) = true
   ∧ open_path p = long_path_prefix ++ p)
  ∨ (¬ ((260 < length p)%nat ∧ found (rmatch drive_prefix p) = true)
     ∧ open_path p = p).
Proof.
  unfold open_path. destruct (Nat.ltb_spec 260 (length p)) as [Hlen|Hlen];
    destruct (found _); simpl; [by left|right..]; (split; [|done]);
    intros [? ?]; done || lia.
Qed.

(** The path given to the decoder is the path itself or the path after
    the prefix of long paths; the prefix is added exactly to the paths of
    more than 260 characters that start with a letter of [a-z] or [A-Z], a
    colon and a backslash, and it is not added twice. *)
Theorem open_path_long_paths (pdf_path : str) :
  (open_path pdf_path = long_path_prefix ++ pdf_path ↔
   (260 < length pdf_path)%nat
   ∧ ∃ c rest, pdf_path = c :: 58%N :: 92%N :: rest
               ∧ is_ascii_alpha c = true)
  ∧ (open_path pdf_path = long_path_prefix ++ pdf_path
     ∨ open_path pdf_path = pdf_path)
  ∧ open_path (open_path pdf_path) = open_path pdf_path.
Proof.
  rewrite <-drive_prefix_iff.
  destruct (open_path_cases pdf_path) as [(Hlen & Hd & Heq)|[Hn Heq]];
    rewrite !Heq.
  - split_and!; [done|by left|].
    destruct (open_path_cases (long_path_prefix ++ pdf_path))
      as [(_ & Hd' & _)|[_ ->]]; [|done].
    by rewrite drive_prefix_long in Hd'.
  - split_and!; [|by right|].
    + split; [|done]. intros Hl%(f_equal length).
      rewrite length_app in Hl. simpl in Hl. lia.
    + done.
Qed.

(** ** The metadata title *)

Lemma is_prefix_iff p s : is_prefix p s = true ↔ ∃ post, s = p ++ post.
Proof.
  revert s. induction p as [|c p IH]; intros s; simpl.
  - split; [eauto|done].
  - destruct s as [|c' s]; [split; [done|by intros (? & ?)]|].
    rewrite andb_true_iff, IH. unfold char_eqb. rewrite N.eqb_eq. split.
    + intros [-> (post & ->)]. eauto.
    + intros (post & [= -> ->]). eauto.
Qed.

Lemma contains_iff needle s :
  contains needle s = true ↔ has_substring needle s.
Proof.
  unfold has_substring. induction s as [|c s IH]; simpl.
  - rewrite orb_false_r, is_prefix_iff. split.
    + intros (post & Heq). by exists [], post.
    + intros (pre & post & Heq). destruct pre; [eauto|done].
  - rewrite orb_true_iff, IH, is_prefix_iff. split.
    + intros [(post & ->)|(pre & post & ->)]; [by exists [], post|].
      by exists (c :: pre), post.
    + intros (pre & post & Heq). destruct pre as [|c' pre]; simplify_eq/=.
      * left. eauto.
      * right. eauto.
Qed.

Lemma word_opt_inv w x e :
  matches (Seq (Word ci w) (Opt (Class (ci x)))) e →
  Forall2 (λ p c, ci p c = true) w e
  ∨ Forall2 (λ p c, ci p c = true) (w ++ [x]) e.
Proof.
  intros (a & b & -> & Ha%matches_Word & [Hb| ->]%matches_Opt)%matches_Seq.
  - right. apply matches_Class in Hb as (c & -> & Hc).
    apply Forall2_app; [done|]. by repeat constructor.
  - left. by rewrite app_nil_r.
Qed.

Lemma extension_pattern_inv s :
  matches extension_pattern s →
  ∃ w e, w ∈ extensions ∧ Forall2 (λ p c, ci p c = true) w e ∧ s = dot ++ e.
Proof.
  unfold extension_pattern.
  intros (a & e & -> & ->%matches_Chr & Hm)%matches_Seq.
  assert (∀ w, w ∈ lit <$> ["pdf"; "doc"; "docx"; "ppt"; "pptx"; "xls";
                            "xlsx"; "cdr"]%string → w ∈ extensions) as Hin
    by done.
  repeat (apply matches_Alt in Hm as [Hm|Hm]).
  - apply matches_Word in Hm. exists (lit "pdf"), e.
    split_and!; [apply Hin; set_solver|done..].
  - apply word_opt_inv in Hm as [Hm|Hm];
      [exists (lit "doc"), e|exists (lit "docx"), e];
      (split_and!; [apply Hin; set_solver|done..]).
  - apply word_opt_inv in Hm as [Hm|Hm];
      [exists (lit "ppt"), e|exists (lit "pptx"), e];
      (split_and!; [apply Hin; set_solver|done..]).
  - apply word_opt_inv in Hm as [Hm|Hm];
      [exists (lit "xls"), e|exists (lit "xlsx"), e];
      (split_and!; [apply Hin; set_solver|done..]).
  - apply matches_Word in Hm. exists (lit "cdr"), e.
    split_and!; [apply Hin; set_solver|done..].
Qed.

Lemma has_extension_iff t :
  (∀ c, last t = Some c → is_space c = false) →
  has_extension t = true ↔ ends_with_extension t.
Proof.
  intros Hlast. unfold has_extension, ends_with_extension.
  rewrite search_iff. split.
  - intros (pre & s1 & s2 & -> & (w & e & Hw & He & ->)%extension_pattern_inv
            & Hend).
    assert (s2 = []) as ->.
    { destruct s2 as [|c [|c' s2]]; [done| |by destruct Hend].
      unfold at_end in Hend. destruct (char_eqb c 10%N) eqn:Hc;
        [|by destruct Hend].
      apply N.eqb_eq in Hc as ->.
      specialize (Hlast 10%N). rewrite !last_app in Hlast.
      by specialize (Hlast eq_refl). }
    exists pre, w, e. by rewrite app_nil_r.
  - intros (pre & w & e & Hw & He & ->). exists pre, (dot ++ e), [].
    split_and!; [by rewrite app_nil_r| |by eexists].
    unfold extension_pattern. constructor; [by apply matches_Chr|].
    unfold extensions in Hw. simpl in Hw.
    repeat (apply elem_of_cons in Hw as [->|Hw]); [..|inversion Hw].
    + apply m_alt_l. by apply matches_Word.
    + apply m_alt_r, m_alt_l. apply matches_word_opt. by left.
    + apply m_alt_r, m_alt_l. apply matches_word_opt. by right.
    + do 2 apply m_alt_r. apply m_alt_l. apply matches_word_opt. by left.
    + do 2 apply m_alt_r. apply m_alt_l. apply matches_word_opt. by right.
    + do 3 apply m_alt_r. apply m_alt_l. apply matches_word_opt. by left.
    + do 3 apply m_alt_r. apply m_alt_l. apply matches_word_opt. by right.
    + do 4 apply m_alt_r. by apply matches_Word.
Qed.

(** The title is the metadata title, without the whitespace around it,
    exactly when that text has more than 4 characters, does not end in a
    period and one of the extensions, and does not contain
    [Microsoft Word]; otherwise it is the title of the first page. *)
Theorem metadata_title_is_used (doc : Document) :
  let t := strip (metadata_title doc) in
  let accepted :=
    (4 < length t)%nat ∧ ¬ ends_with_extension t
    ∧ ¬ has_substring (lit "Microsoft Word") t in
  (accepted → _extract_title doc = t)
  ∧ (¬ accepted → _extract_title doc = title_from_page doc).
Proof.
  intros t accepted. subst accepted. unfold _extract_title. fold t.
  unfold metadata_title_ok.
  rewrite <-(has_extension_iff t) by apply strip_last.
  rewrite <-contains_iff.
  destruct (Nat.ltb_spec 4 (length t)) as [Hlen|Hlen];
    destruct (has_extension t); destruct (contains _ t); simpl;
    try (rewrite andb_false_r; split; [intros (? & ? & ?); done || lia|done]).
  split; [intros _|intros []; done].
  rewrite bool_decide_eq_false_2; [done|]. intros Ht. rewrite Ht in Hlen.
  simpl in Hlen. lia.
Qed.

(** ** The further theorems at the examples *)

Lemma text_blocks_have_words_witness :
  introduction_text_block ∈ _get_text_blocks ascii_lower raw_pages_example
  ∧ strip (text introduction_text_block) = text introduction_text_block
  ∧ 1 ≤ num_words introduction_text_block.
Proof.
  assert (introduction_text_block
          ∈ _get_text_blocks ascii_lower raw_pages_example) as Hb.
  { vm_compute. left. }
  split; [exact Hb|].
  destruct (text_blocks_have_words ascii_lower raw_pages_example
              introduction_text_block Hb) as (Hstrip & _ & _ & Hwords).
  split; [exact Hstrip|exact Hwords].
Defined.

Lemma text_block_dominant_style_witness :
  body_text_block ∈ _get_text_blocks ascii_lower raw_pages_example
  ∧ ∃ page block,
      page ∈ raw_pages_example ∧ block ∈ raw_blocks page
      ∧ bbox body_text_block = raw_bbox block
      ∧ style body_text_block ∈ span_styles ascii_lower block.
Proof.
  assert (body_text_block
          ∈ _get_text_blocks ascii_lower raw_pages_example) as Hb.
  { vm_compute. right. left. }
  split; [exact Hb|].
  destruct (text_block_dominant_style ascii_lower raw_pages_example
              body_text_block Hb)
    as (page & block & Hpage & Hblock & _ & _ & Hbox & _ & Hstyle & _).
  exists page, block. split_and!; assumption.
Defined.

Lemma title_is_not_a_heading_witness :
  background_entry
  ∈ heuristic_outline ascii_only (lit "Introduction")
      (text_blocks two_heading_document)
  ∧ ¬ (level background_entry = 1 ∧ h_page_num background_entry = 1
       ∧ h_text background_entry = lit "Introduction").
Proof.
  assert (background_entry
          ∈ heuristic_outline ascii_only (lit "Introduction")
              (text_blocks two_heading_document)) as Hh.
  { vm_compute. left. }
  split; [exact Hh|].
  exact (title_is_not_a_heading ascii_only (lit "Introduction")
           (text_blocks two_heading_document) background_entry Hh).
Defined.

Lemma outline_texts_are_normalized_witness :
  normalize (h_text background_entry) = h_text background_entry.
Proof.
  apply (outline_texts_are_normalized ascii_only two_heading_document
           background_entry).
  - vm_compute. right. left.
  - by eexists.
Defined.

Lemma outline_texts_have_letters_witness :
  Exists (λ c, is_ascii_alpha c = true) (h_text introduction_entry).
Proof.
  apply (outline_texts_have_letters ascii_only ascii_lower raw_pages_example
           pass1_document introduction_entry).
  - reflexivity.
  - vm_compute. left.
Defined.

Lemma outline_levels_witness :
  level numbered_entry = count_char 46%N (lit "1.1") + 1.
Proof.
  apply (outline_levels ascii_only scenario_document numbered_entry).
  - vm_compute. right. left.
  - by eexists.
  - reflexivity.
Defined.

Lemma title_from_page_largest_lines_witness :
  title_from_page file_name_document = lit "report.pdf".
Proof.
  pose proof (title_from_page_largest_lines file_name_document) as H.
  cbv zeta in H. destruct H as (_ & _ & H).
  rewrite (H 24).
  - reflexivity.
  - discriminate.
  - vm_compute. left.
  - intros k Hk. vm_compute in Hk.
    apply elem_of_cons in Hk as [->|Hk]; [lia|inversion Hk].
Defined.

Lemma sections_follow_the_outline_witness :
  ∃ secs,
    document_sections ascii_only two_heading_document = Some secs
    ∧ (λ s, (section_title s, page_number s)) <$> secs
      = (λ h, (h_text h, h_page_num h))
          <$> outline (get_outline ascii_only two_heading_document).
Proof.
  apply (sections_follow_the_outline ascii_only two_heading_document).
  - reflexivity.
  - apply Forall_forall. repeat constructor; cbn; lia.
Defined.

Lemma section_spans_are_within_the_document_witness :
  StronglySorted Z.le
    (page_number <$> [introduction_section; background_section])
  ∧ ∀ s, s ∈ [introduction_section; background_section] →
         start_page (bounds s) = page_number s - 1
         ∧ 0 ≤ start_page (bounds s) ≤ end_page (bounds s)
         ∧ end_page (bounds s) < 1.
Proof.
  apply (section_spans_are_within_the_document two_heading_document
           [introduction_entry; background_entry]
           [introduction_section; background_section]).
  - apply SSorted_cons; [repeat constructor|].
    constructor; [|constructor].
    right. split; [reflexivity|]. by vm_compute.
  - apply Forall_forall. repeat constructor; by eexists.
  - apply Forall_forall. repeat constructor; cbn; lia.
  - by vm_compute.
Defined.

Lemma section_content_shape_witness :
  ∃ body,
    content background_section
    = section_title background_section ++ [newline] ++ body
    ∧ strip body = body ∧ ¬ has_blank_line body.
Proof.
  apply (section_content_shape two_heading_document
           [introduction_entry; background_entry]
           [introduction_section; background_section] background_section).
  - by vm_compute.
  - right. left.
Defined.

Lemma open_path_long_paths_witness :
  open_path long_path = long_path_prefix ++ long_path.
Proof.
  apply (proj1 (open_path_long_paths long_path)). split.
  - vm_compute. lia.
  - exists 67%N, (replicate 300 97%N). by split.
Defined.

Lemma metadata_title_is_used_witness :
  _extract_title titled_document = lit "Annual Report 2024".
Proof.
  pose proof (metadata_title_is_used titled_document) as H.
  cbv zeta in H. destruct H as [H _]. apply H. split_and!.
  - vm_compute. lia.
  - intros He. apply has_extension_iff in He; [by vm_compute in He|].
    intros c Hc. vm_compute in Hc. by injection Hc as <-.
  - intros Hs. apply contains_iff in Hs. by vm_compute in Hs.
Defined.


Lemma main_output_top_sections_witness :
  ∃ out,
    main_output ascii_only length_embedding closeness Z.ltb id id
      example_files example_config = Some out
    ∧ length (extracted_sections out) = 4%nat
    ∧ length (subsection_analysis out) = 4%nat.
Proof.
  destruct (main_output ascii_only length_embedding closeness Z.ltb id id
              example_files example_config) as [out|] eqn:Hout;
    [|by vm_compute in Hout].
  exists out. split; [reflexivity|].
  destruct (main_output_top_sections ascii_only length_embedding closeness
              Z.ltb id id example_files example_config out Hout)
    as (Hten & Hfive & _).
  split; [exact Hten|exact Hfive].
Defined.

Lemma main_output_provenance_witness :
  ∃ out e,
    main_output ascii_only length_embedding closeness Z.ltb id id
      example_files example_config = Some out
    ∧ e ∈ extracted_sections out
    ∧ es_document e ∈ input_documents out.
Proof.
  destruct (main_output ascii_only length_embedding closeness Z.ltb id id
              example_files example_config) as [out|] eqn:Hout;
    [|by vm_compute in Hout].
  destruct (extracted_sections out) as [|e l] eqn:He.
  { vm_compute in Hout. injection Hout as <-. discriminate He. }
  assert (e ∈ extracted_sections out) as Hin by (rewrite He; left).
  exists out, e. split; [reflexivity|]. split; [exact Hin|].
  destruct (main_output_provenance ascii_only length_embedding closeness
              Z.ltb id id example_files example_config out e Hout Hin)
    as (filename & _ & _ & _ & Hf & _ & _ & _ & Hdoc & _).
  rewrite Hdoc. exact Hf.
Defined.

Lemma main_output_by_relevance_witness :
  ∃ out (ranked : list (DocSection * Z)),
    main_output ascii_only length_embedding closeness Z.ltb id id
      example_files example_config = Some out
    ∧ StronglySorted (λ x y, (x.2 <? y.2) = false) ranked
    ∧ (λ e, (es_document e, es_section_title e, es_page_number e))
        <$> extracted_sections out
      = (λ p, (document p.1, section_title (doc_section p.1),
               page_number (doc_section p.1))) <$> take 10 ranked.
Proof.
  destruct (main_output ascii_only length_embedding closeness Z.ltb id id
              example_files example_config) as [out|] eqn:Hout;
    [|by vm_compute in Hout].
  destruct (main_output_by_relevance ascii_only length_embedding closeness
              Z.ltb id id example_files example_config out)
    as (ranked & _ & Hsorted & Hlisted).
  - intros a b Hab. lia.
  - intros a b c Hab Hbc. lia.
  - exact Hout.
  - exists out, ranked. split; [reflexivity|]. split; [exact Hsorted|].
    exact Hlisted.
Defined.

Lemma outline_entries_come_from_the_document_witness :
  (∃ e, e ∈ toc two_heading_document ∧ background_entry = toc_entry e)
  ∨ (∃ b body_style,
       b ∈ text_blocks two_heading_document
       ∧ _find_body_style (text_blocks two_heading_document) = Some body_style
       ∧ h_text background_entry = normalize (text b)
       ∧ h_page_num background_entry = page_num b
       ∧ h_bbox background_entry = Some (bbox b)
       ∧ num_words b ≤ 30 ∧ num_lines b ≤ 3
       ∧ more_prominent (style b) body_style).
Proof.
  apply (outline_entries_come_from_the_document ascii_only
           two_heading_document background_entry).
  vm_compute. right. left.
Defined.
